(** * Popper utilities (src/popper/util.py): literal scheduling, search order,
      canonicalisation and subsumption.

    Shallow embedding of the pure parts of [util.py]: [order_rule],
    [order_rule_datalog], [bias_order], [reduce_prog], [order_prog],
    [rule_is_recursive], [rule_subsumes], [theory_subsumes] and the
    formatting helpers used in error messages. *)

From Stdlib Require Import List String Ascii ZArith Bool Lia.
From Stdlib Require Import Permutation Sorted.
From Stdlib Require OrdersEx.
Import ListNotations.
Open Scope list_scope.

(* ------------------------------------------------------------------ *)
(** ** Python values and results *)

(** Exceptions raised by the embedded functions. *)
Inductive exn :=
| ValueError (msg : string)
| AttributeError (msg : string)
| IndexError (msg : string)
| TypeError (msg : string).

(** A Python computation either returns a value or raises. *)
Inductive result (A : Type) :=
| Ok (a : A)
| Raise (e : exn).
Arguments Ok {A} a.
Arguments Raise {A} e.

(** The two container kinds compared with [==] in [order_rule]. Python's
    [==] between a [frozenset] and a [list] is always [False]; two
    frozensets are equal when they have the same elements; two lists when
    they are elementwise equal. *)
Inductive pyval :=
| PyFrozenset (xs : list string)
| PyList (xs : list string).

Definition mem (x : string) (xs : list string) : bool :=
  existsb (String.eqb x) xs.

(** [a.issubset(b)] *)
Definition issubset (a b : list string) : bool :=
  forallb (fun x => mem x b) a.

Fixpoint list_eqb (a b : list string) : bool :=
  match a, b with
  | [], [] => true
  | x :: a', y :: b' => String.eqb x y && list_eqb a' b'
  | _, _ => false
  end.

Definition py_eq (v w : pyval) : bool :=
  match v, w with
  | PyFrozenset a, PyFrozenset b => issubset a b && issubset b a
  | PyList a, PyList b => list_eqb a b
  | _, _ => false
  end.

(* ------------------------------------------------------------------ *)
(** ** Literals and rules *)

(** Direction of an argument position. *)
Inductive mode := DirIn | DirOut | DirUnbound.

(** Modelled from the spec: the [Literal] class of [popper/core.py] (not
    part of the sources), "an immutable value: predicate, arguments,
    modes; inputs = set of arguments at In positions, outputs = set of
    arguments at Out positions". Both derived sets are frozensets. *)
Record Literal := mkLiteral {
  predicate : string;
  arguments : list string;
  modes : list mode
}.

Definition mode_eq_dec (m1 m2 : mode) : {m1 = m2} + {m1 <> m2}.
Proof. decide equality. Defined.

Definition Literal_eq_dec (l1 l2 : Literal) : {l1 = l2} + {l1 <> l2}.
Proof.
  decide equality;
    [apply (list_eq_dec mode_eq_dec) | apply (list_eq_dec string_dec)
    | apply string_dec].
Defined.

Definition lit_eqb (l1 l2 : Literal) : bool :=
  if Literal_eq_dec l1 l2 then true else false.

Definition is_in (m : mode) : bool := match m with DirIn => true | _ => false end.
Definition is_out (m : mode) : bool := match m with DirOut => true | _ => false end.

(** Modelled from the spec: [literal.inputs], the frozenset of the
    arguments at [In] positions (zipping directions with arguments). *)
Definition inputs (l : Literal) : list string :=
  nodup string_dec
    (map snd (filter (fun p => is_in (fst p)) (combine (modes l) (arguments l)))).

(** Modelled from the spec: [literal.outputs], the frozenset of the
    arguments at [Out] positions. *)
Definition outputs (l : Literal) : list string :=
  nodup string_dec
    (map snd (filter (fun p => is_out (fst p)) (combine (modes l) (arguments l)))).

(** A rule is [(head, body)]; [head = None] is a constraint. The body list
    is the body container in its iteration order. *)
Definition Rule : Type := (option Literal * list Literal)%type.

(** [format_literal] *)
Definition format_literal (l : Literal) : string :=
  (predicate l ++ "(" ++ String.concat "," (arguments l) ++ ")")%string.

(** [format_rule] *)
Definition format_rule (rule : Rule) : string :=
  let (head, body) := rule in
  let head_str := match head with Some h => format_literal h | None => ""%string end in
  let body_str := String.concat "," (map format_literal body) in
  (head_str ++ ":- " ++ body_str ++ ".")%string.

(* ------------------------------------------------------------------ *)
(** ** Stable sorting ([sorted(xs, key=...)] and [list.sort(key=...)]) *)

Section StableSort.
Variable A : Type.
(** [ltb x y]: the key of [x] is strictly smaller than the key of [y]. *)
Variable ltb : A -> A -> bool.

(** Insert [x] after every element whose key is not greater than its own,
    so that equal keys keep their input order (Python's sort is stable). *)
Fixpoint insert_by (x : A) (acc : list A) : list A :=
  match acc with
  | [] => [x]
  | y :: r => if ltb x y then x :: y :: r else y :: insert_by x r
  end.

Definition sort_by (l : list A) : list A :=
  fold_left (fun acc x => insert_by x acc) l [].
End StableSort.
Arguments insert_by {A} ltb x acc.
Arguments sort_by {A} ltb l.

(** Lexicographic [<] on Python tuples [(a, b)]. *)
Definition tuple_ltb {X Y : Type} (ltx : X -> X -> bool) (eqx : X -> X -> bool)
  (lty : Y -> Y -> bool) (p q : X * Y) : bool :=
  ltx (fst p) (fst q) || (eqx (fst p) (fst q) && lty (snd p) (snd q)).

(* ------------------------------------------------------------------ *)
(** ** Run settings *)

(** Search-order entry [(size_literals, size_vars, size_rules, hspace)]. *)
Definition Entry : Type := (Z * Z * Z * option Z)%type.

(** The fields of the run-level [settings] object read by the embedded
    functions. [recall] maps [(predicate, boundedness key)] to a count. *)
Record Settings := mkSettings {
  datalog : bool;
  recall : list ((string * string) * Z);
  no_bias : bool;
  order_space : bool;
  body_preds : list (string * Z);
  max_arity : Z;
  max_rules : Z;
  max_body : Z;
  max_vars : Z;
  search_order : list Entry
}.

(** [if settings and settings.datalog] *)
Definition settings_datalog (settings : option Settings) : bool :=
  match settings with Some s => datalog s | None => false end.

(* ------------------------------------------------------------------ *)
(** ** Literal scheduling: [order_rule] and [order_rule_datalog] *)

Section Scheduler.

(** Iteration order of a Python [set] of literals: the set is represented
    by a duplicate-free list and [set_iter] gives the (hash-dependent)
    order in which a [for] loop visits it. *)
Variable set_iter : list Literal -> list Literal.

(** [set(body)] *)
Definition to_set (body : list Literal) : list Literal :=
  nodup Literal_eq_dec body.

(** [body_literals.difference({selected_literal})] *)
Definition set_remove (l : Literal) (pool : list Literal) : list Literal :=
  filter (fun x => negb (lit_eqb x l)) pool.

(** [len(literal.outputs) == len(literal.arguments)] *)
Definition is_generator (l : Literal) : bool :=
  Nat.eqb (List.length (outputs l)) (List.length (arguments l)).

(** The [for literal in body_literals] loop of one iteration of
    [order_rule]; [sel] is [selected_literal], a [break] returns. *)
Fixpoint select_scan (head : option Literal) (grounded : list string)
    (sel : option Literal) (ls : list Literal) : option Literal :=
  match ls with
  | [] => sel
  | l :: rest =>
      if is_generator l then Some l
      else if negb (issubset (inputs l) grounded) then
        select_scan head grounded sel rest
      else
        match head with
        | Some h =>
            if negb (String.eqb (predicate l) (predicate h)) then Some l
            else match sel with
                 | None => select_scan head grounded (Some l) rest
                 | Some _ => select_scan head grounded sel rest
                 end
        | None =>
            match sel with
            | None => select_scan head grounded (Some l) rest
            | Some _ => select_scan head grounded sel rest
            end
        end
  end.

(** The [while body_literals] loop. [None] is the [raise ValueError]
    branch ([selected_literal == None]); [fuel] bounds the iterations by
    the number of literals, each iteration removing one. *)
Fixpoint order_loop (fuel : nat) (head : option Literal) (grounded : list string)
    (pool : list Literal) (ordered_body : list Literal) : option (list Literal) :=
  match pool with
  | [] => Some ordered_body
  | _ :: _ =>
      match fuel with
      | O => None
      | S fuel' =>
          match select_scan head grounded None (set_iter pool) with
          | None => None
          | Some l =>
              order_loop fuel' head (grounded ++ outputs l) (set_remove l pool)
                (ordered_body ++ [l])
          end
      end
  end.

(** [tmp_score] of [order_rule_datalog]. *)
Definition tmp_score (rc : list ((string * string) * Z)) (seen_vars : list string)
    (l : Literal) : Z :=
  let key := String.concat "" (map (fun x => if mem x seen_vars then "1" else "0")
                                   (arguments l))%string in
  let k := (predicate l, key) in
  match find (fun e => String.eqb (fst (fst e)) (fst k)
                       && String.eqb (snd (fst e)) (snd k)) rc with
  | Some e => snd e
  | None => 1000000
  end.

(** The [while body_literals] loop of [order_rule_datalog]; [None] is the
    [xs[0]] [IndexError] branch. *)
Fixpoint datalog_loop (fuel : nat) (rc : list ((string * string) * Z))
    (seen_vars : list string) (pool : list Literal) (ordered_body : list Literal)
    : option (list Literal) :=
  match pool with
  | [] => Some ordered_body
  | _ :: _ =>
      match fuel with
      | O => None
      | S fuel' =>
          let selected :=
            match find (fun l => issubset (arguments l) seen_vars) (set_iter pool) with
            | Some l => Some l
            | None =>
                hd_error (sort_by (fun a b => Z.ltb (tmp_score rc seen_vars a)
                                                    (tmp_score rc seen_vars b))
                            (set_iter pool))
            end in
          match selected with
          | None => None
          | Some l =>
              datalog_loop fuel' rc (seen_vars ++ arguments l) (set_remove l pool)
                (ordered_body ++ [l])
          end
      end
  end.

(** [order_rule_datalog] *)
Definition order_rule_datalog (rule : Rule) (settings : Settings) : result Rule :=
  let (head, body) := rule in
  let seen_vars := match head with Some h => arguments h | None => [] end in
  let body_literals := to_set body in
  match datalog_loop (List.length body_literals) (recall settings) seen_vars body_literals [] with
  | Some ob => Ok (head, ob)
  | None => Raise (IndexError "list index out of range")
  end.

(** The message of the [ValueError]: [selected_literal] is [None] there. *)
Definition grounding_message (rule : Rule) : string :=
  ("None" ++ " in clause " ++ format_rule rule ++ " could not be grounded")%string.

(** [order_rule] below the [settings.datalog] dispatch. *)
Definition order_rule_modes (rule : Rule) : result Rule :=
  let (head, body) := rule in
  let run (grounded_variables : list string) : result Rule :=
    let body_literals := to_set body in
    match order_loop (List.length body_literals) head grounded_variables body_literals [] with
    | Some ordered_body => Ok (head, ordered_body)
    | None => Raise (ValueError (grounding_message rule))
    end in
  match head with
  | Some h =>
      if py_eq (PyFrozenset (inputs h)) (PyList []) then Ok rule
      else run (inputs h)
  | None => run []
  end.

(** [order_rule]. [head.inputs == []] compares a frozenset with a list. *)
Definition order_rule (rule : Rule) (settings : option Settings) : result Rule :=
  match settings with
  | Some s => if datalog s then order_rule_datalog rule s else order_rule_modes rule
  | None => order_rule_modes rule
  end.

End Scheduler.

(** Input variables of the head, the initial [grounded_variables]. *)
Definition head_inputs (head : option Literal) : list string :=
  match head with Some h => inputs h | None => [] end.

(** Grounding safety of a scheduled body, read left to right from the
    variables [g] already bound: each literal's inputs are bound. *)
Fixpoint grounding_safe (g : list string) (ob : list Literal) : Prop :=
  match ob with
  | [] => True
  | l :: r => incl (inputs l) g /\ grounding_safe (g ++ outputs l) r
  end.

(* ------------------------------------------------------------------ *)
(** ** Canonicalisation: [reduce_prog], [order_prog], [rule_is_recursive] *)

(** [(literal.predicate, literal.arguments)] *)
Definition Sig : Type := (string * list string)%type.

Definition sig_eqb (a b : Sig) : bool :=
  String.eqb (fst a) (fst b) && list_eqb (snd a) (snd b).

(** [a.issubset(b)] on frozensets of signatures. *)
Definition sig_subset (a b : list Sig) : bool :=
  forallb (fun x => existsb (sig_eqb x) b) a.

(** The dictionary key [(f(head), frozenset(f(l) for l in body))]; two keys
    are equal when the heads are equal and the frozensets have the same
    elements. *)
Definition Key : Type := (Sig * list Sig)%type.

Definition key_eqb (k1 k2 : Key) : bool :=
  sig_eqb (fst k1) (fst k2) && sig_subset (snd k1) (snd k2)
  && sig_subset (snd k2) (snd k1).

(** [reduced[k] = rule]: an existing equal key keeps its place and its
    value is replaced; a new key is appended (dicts keep insertion order). *)
Fixpoint dict_set (k : Key) (v : Rule) (d : list (Key * Rule)) : list (Key * Rule) :=
  match d with
  | [] => [(k, v)]
  | (k', v') :: r => if key_eqb k k' then (k', v) :: r else (k', v') :: dict_set k v r
  end.

(** [f(literal)] of [reduce_prog]; on [None] the attribute access raises. *)
Definition reduce_f (head : option Literal) : result Sig :=
  match head with
  | Some l => Ok (predicate l, arguments l)
  | None => Raise (AttributeError "'NoneType' object has no attribute 'predicate'")
  end.

Definition sig_of (l : Literal) : Sig := (predicate l, arguments l).

(** The [for rule in prog] loop of [reduce_prog]. *)
Fixpoint reduce_loop (prog : list Rule) (reduced : list (Key * Rule))
    : result (list (Key * Rule)) :=
  match prog with
  | [] => Ok reduced
  | ((head, body) as rule) :: rest =>
      match reduce_f head with
      | Raise e => Raise e
      | Ok h => reduce_loop rest (dict_set (h, map sig_of body) rule reduced)
      end
  end.

(** [reduce_prog]: [reduced.values()]. *)
Definition reduce_prog (prog : list Rule) : result (list Rule) :=
  match reduce_loop prog [] with
  | Ok reduced => Ok (map snd reduced)
  | Raise e => Raise e
  end.

(** [rule_is_recursive]; every body element is a [Literal]. *)
Definition rule_is_recursive (rule : Rule) : bool :=
  let (head, body) := rule in
  match head with
  | None => false
  | Some h => existsb (fun l => String.eqb (predicate h) (predicate l)) body
  end.

(** The sort key [(rule_is_recursive(rule), len(rule[1]))]. *)
Definition prog_key (rule : Rule) : bool * nat :=
  (rule_is_recursive rule, List.length (snd rule)).

(** [False < True] *)
Definition bool_ltb (a b : bool) : bool := negb a && b.

Definition prog_key_ltb (r1 r2 : Rule) : bool :=
  tuple_ltb bool_ltb Bool.eqb Nat.ltb (prog_key r1) (prog_key r2).

(** [order_prog] *)
Definition order_prog (prog : list Rule) : list Rule :=
  sort_by prog_key_ltb prog.

(* ------------------------------------------------------------------ *)
(** ** Subsumption: [rule_subsumes], [theory_subsumes] *)

(** Rules as compared by the subsumption check: an optional head and a
    frozenset of body signatures. *)
Definition SRule : Type := (option Sig * list Sig)%type.

(** [rule_subsumes] *)
Definition rule_subsumes (r1 r2 : SRule) : bool :=
  let (h1, b1) := r1 in
  let (h2, b2) := r2 in
  match h1, h2 with
  | Some _, None => false
  | _, _ => sig_subset b1 b2
  end.

(** [theory_subsumes] *)
Definition theory_subsumes (prog1 prog2 : list SRule) : bool :=
  forallb (fun r2 => existsb (fun r1 => rule_subsumes r1 r2) prog1) prog2.

(* ------------------------------------------------------------------ *)
(** ** Search order: [bias_order] *)

Open Scope Z_scope.

(** [range(a, b)] *)
Definition zrange (a b : Z) : list Z :=
  map (fun i => a + Z.of_nat i) (seq 0 (Z.to_nat (b - a))).

(** A [for] loop whose body may raise. *)
Fixpoint fold_result {A B : Type} (f : B -> A -> result B) (l : list A) (b : B)
    : result B :=
  match l with
  | [] => Ok b
  | x :: r => match f b x with Ok b' => fold_result f r b' | Raise e => Raise e end
  end.

(** [C(n, i + 1) = C(n, i) * (n - i) / (i + 1)], from [C(n, 0) = 1]. *)
Fixpoint comb_loop (n : Z) (i : nat) (k : nat) (acc : Z) : Z :=
  match k with
  | O => acc
  | S k' => comb_loop n (S i) k' (acc * (n - Z.of_nat i) / (Z.of_nat i + 1))
  end.

(** [math.comb(n, k)]: [ValueError] on a negative argument, [0] when
    [k > n]. *)
Definition math_comb (n k : Z) : result Z :=
  if (n <? 0) || (k <? 0) then Raise (ValueError "must be a non-negative integer")
  else Ok (comb_loop n 0 (Z.to_nat k) 1).

(** [comb(predicates * pow(size_vars, arity), size_literals)]; a negative
    exponent makes [pow] return a float, which [comb] refuses. *)
Definition hspace_of (predicates size_vars arity size_literals : Z) : result Z :=
  if arity <? 0 then Raise (TypeError "'float' object cannot be interpreted as an integer")
  else math_comb (predicates * size_vars ^ arity) size_literals.

(** Expanded-mode tuple [(size_literals, size_vars, size_rules, hspace)]. *)
Definition XEntry : Type := (Z * Z * Z * Z)%type.

(** The innermost [for size_vars in ...] loop, with its [break] and
    [continue]s. *)
Fixpoint vars_loop (predicates arity size_rules size_literals : Z) (vs : list Z)
    (ret : list XEntry) : result (list XEntry) :=
  match vs with
  | [] => Ok ret
  | size_vars :: vs' =>
      let max_possible_vars := size_literals * arity - 1 in
      if size_vars >? max_possible_vars then Ok ret
      else
        match hspace_of predicates size_vars arity size_literals with
        | Raise e => Raise e
        | Ok hspace =>
            if hspace =? 0 then
              vars_loop predicates arity size_rules size_literals vs' ret
            else if (size_rules >? 1) && (size_literals <? 5) then
              vars_loop predicates arity size_rules size_literals vs' ret
            else
              vars_loop predicates arity size_rules size_literals vs'
                (ret ++ [(size_literals, size_vars, size_rules, hspace)])
        end
  end.

(** The sort key [(tup[3], tup[0])]. *)
Definition xentry_ltb (t u : XEntry) : bool :=
  let '(l1, _, _, h1) := t in
  let '(l2, _, _, h2) := u in
  tuple_ltb Z.ltb Z.eqb Z.ltb (h1, l1) (h2, l2).

Definition to_entry (t : XEntry) : Entry :=
  let '(l, v, r, h) := t in (l, v, r, Some h).

Definition set_search_order (s : Settings) (so : list Entry) : Settings :=
  mkSettings (datalog s) (recall s) (no_bias s) (order_space s) (body_preds s)
    (max_arity s) (max_rules s) (max_body s) (max_vars s) so.

(** [bias_order]: the returned list, and the settings with
    [search_order] assigned in expanded mode. *)
Definition bias_order (settings : Settings) (max_size : Z)
    : result (Settings * list Entry) :=
  if negb (no_bias settings || order_space settings) then
    Ok (settings, map (fun size_literals =>
                         (size_literals, max_vars settings, max_rules settings, None))
                      (zrange 1 max_size))
  else
    let predicates := Z.of_nat (List.length (body_preds settings)) + 1 in
    let arity := max_arity settings in
    let min_rules := if no_bias settings then 1 else max_rules settings in
    let minimum_vars := if no_bias settings then 1 else max_vars settings in
    let sweep :=
      fold_result (fun ret size_rules =>
        let max_size := (1 + max_body settings) * size_rules in
        fold_result (fun ret size_literals =>
          vars_loop predicates arity size_rules size_literals
            (zrange minimum_vars (max_vars settings + 1)) ret)
          (zrange 1 (max_size + 1)) ret)
        (zrange min_rules (max_rules settings + 1)) [] in
    match sweep with
    | Raise e => Raise e
    | Ok ret =>
        let ret := if order_space settings then sort_by xentry_ltb ret else ret in
        let so := map to_entry ret in
        Ok (set_search_order settings so, so)
    end.

(** [tup[0]] and [tup[3]] of a search-order entry. *)
Definition entry_literals (e : Entry) : Z := let '(l, _, _, _) := e in l.
Definition entry_space (e : Entry) : option Z := let '(_, _, _, h) := e in h.

Close Scope Z_scope.

(* ------------------------------------------------------------------ *)
(** ** Grounding-safe arrangements *)

(** An arrangement [ob] of body literals is grounding-safe from the bound
    variables [g] when each literal's inputs are bound by [g] or by the
    outputs of the literals before it. *)
Definition arrangement_safe (g : list string) (ob : list Literal) : Prop :=
  forall pre l post, ob = pre ++ l :: post ->
  incl (inputs l) (g ++ flat_map outputs pre).

(* ------------------------------------------------------------------ *)
(** ** [order_rule2], [rule_size], [calc_prog_size] *)

(** Python's [<] on tuples of equal type, element by element: the first
    position where the elements differ decides, and a proper prefix is
    smaller. *)
Fixpoint list_ltb {X : Type} (ltx : X -> X -> bool) (eqx : X -> X -> bool)
    (a b : list X) : bool :=
  match a, b with
  | [], [] => false
  | [], _ :: _ => true
  | _ :: _, [] => false
  | x :: xs, y :: ys => ltx x y || (eqx x y && list_ltb ltx eqx xs ys)
  end.

(** The sort key [(len(x.arguments), x.predicate, x.arguments)] of
    [order_rule2]; Python's [str] [<] on these ASCII names is
    [String.ltb]. *)
Definition order_rule2_key (x : Literal) : nat * (string * list string) :=
  (List.length (arguments x), (predicate x, arguments x)).

Definition key2_ltb : nat * (string * list string) -> nat * (string * list string) -> bool :=
  tuple_ltb Nat.ltb Nat.eqb
    (tuple_ltb String.ltb String.eqb (list_ltb String.ltb String.eqb)).

Definition order_rule2_ltb (x y : Literal) : bool :=
  key2_ltb (order_rule2_key x) (order_rule2_key y).

(** [order_rule2]: the head is kept, the body is sorted by the key. *)
Definition order_rule2 (rule : Rule) : Rule :=
  let (head, body) := rule in (head, sort_by order_rule2_ltb body).

(** [rule_size] *)
Definition rule_size (rule : Rule) : nat :=
  let (head, body) := rule in 1 + List.length body.

(** [calc_prog_size]: [sum(rule_size(rule) for rule in prog)]. *)
Definition calc_prog_size (prog : list Rule) : nat :=
  list_sum (map rule_size prog).

(** The dictionary key [k] that [reduce_prog] computes for a rule with a
    head; for a rule without one [reduce_f] raises instead, and the
    placeholder head signature here is never used. *)
Definition reduce_key (rule : Rule) : Key :=
  (match fst rule with Some h => sig_of h | None => (EmptyString, []) end,
   map sig_of (snd rule)).

(* ------------------------------------------------------------------ *)
(** ** [Settings.__init__]: directions read from the bias file *)

(** [directions], a [defaultdict] of [defaultdict]s, flattened to a
    dictionary from [(pred, i)] to a direction string. *)
Definition Dirs : Type := list ((string * nat) * string).

Definition pair_eqb (a b : string * nat) : bool :=
  String.eqb (fst a) (fst b) && Nat.eqb (snd a) (snd b).

(** [directions[pred][i] = arg_dir] *)
Fixpoint dirs_set (k : string * nat) (v : string) (d : Dirs) : Dirs :=
  match d with
  | [] => [(k, v)]
  | (k', v') :: r => if pair_eqb k k' then (k', v) :: r else (k', v') :: dirs_set k v r
  end.

(** [directions[pred][i]] when read: the inner default is ['?']. *)
Fixpoint dir_lookup (d : Dirs) (pred : string) (i : nat) : string :=
  match d with
  | [] => "?"
  | (k, v) :: r => if pair_eqb (pred, i) k then v else dir_lookup r pred i
  end.

(** The inner loop [for i, y in enumerate(...)] of one [direction] atom.
    [arg_dir] is a local variable of [__init__] that keeps its value from
    one argument (and one atom) to the next; [None] stands for it being
    unbound. Reading it unbound raises [UnboundLocalError], the outer
    [None] here. *)
Fixpoint dir_args (pred : string) (i : nat) (names : list string)
    (arg_dir : option string) (d : Dirs) : option (option string * Dirs) :=
  match names with
  | [] => Some (arg_dir, d)
  | y :: ys =>
      let arg_dir' :=
        if String.eqb y "in" then Some "+"%string
        else if String.eqb y "out" then Some "-"%string
        else arg_dir in
      match arg_dir' with
      | None => None
      | Some a => dir_args pred (S i) ys (Some a) (dirs_set (pred, i) a d)
      end
  end.

(** The loop over the [direction/2] atoms, each given as the predicate
    name and the names in its argument tuple, in the solver's order. *)
Fixpoint dir_atoms (atoms : list (string * list string)) (arg_dir : option string)
    (d : Dirs) : option Dirs :=
  match atoms with
  | [] => Some d
  | (pred, names) :: rest =>
      match dir_args pred 0 names arg_dir d with
      | None => None
      | Some (a, d') => dir_atoms rest a d'
      end
  end.

(** [directions] after the loop; [None] is the [UnboundLocalError]. *)
Definition read_directions (atoms : list (string * list string)) : option Dirs :=
  dir_atoms atoms None [].

(** [tuple(directions[pred][i] for i in range(arity))], as used for
    [head_modes] and [body_modes]. *)
Definition modes_of (d : Dirs) (pred : string) (arity : nat) : list string :=
  map (dir_lookup d pred) (seq 0 arity).

(* ------------------------------------------------------------------ *)
(** ** [Settings.__init__]: [cached_atom_args] *)

(** [itertools.permutations(pool, r)] on a pool of distinct values, in
    its order: lexicographic in the positions of the pool. *)
Fixpoint permutations (pool : list Z) (r : nat) : list (list Z) :=
  match r with
  | O => [[]]
  | S r' => flat_map (fun x => map (cons x) (permutations (remove Z.eq_dec x pool) r')) pool
  end.

(** [arg_lookup = {i: chr(ord('A') + i) for i in range(100)}]; [None] is
    the [KeyError] of [arg_lookup[x]]. The code points stay below 256. *)
Definition arg_lookup (x : Z) : option string :=
  if ((0 <=? x) && (x <? 100))%Z
  then Some (String (ascii_of_nat (65 + Z.to_nat x)) EmptyString)
  else None.

(** [tuple(arg_lookup[x] for x in args)] *)
Fixpoint lookup_args (args : list Z) : option (list string) :=
  match args with
  | [] => Some []
  | x :: r =>
      match arg_lookup x with
      | None => None
      | Some c => match lookup_args r with None => None | Some cs => Some (c :: cs) end
      end
  end.

(** [self.cached_atom_args[k] = v]; a key [tuple(clingo.Number(x) ...)] is
    the tuple of the numbers. *)
Fixpoint cache_set (k : list Z) (v : list string) (d : list (list Z * list string))
    : list (list Z * list string) :=
  match d with
  | [] => [(k, v)]
  | (k', v') :: r =>
      if list_eq_dec Z.eq_dec k k' then (k', v) :: r else (k', v') :: cache_set k v r
  end.

(** [for args in permutations(range(0, self.max_vars), i)] *)
Fixpoint cache_perms (ps : list (list Z)) (d : list (list Z * list string))
    : option (list (list Z * list string)) :=
  match ps with
  | [] => Some d
  | args :: rest =>
      match lookup_args args with
      | None => None
      | Some v => cache_perms rest (cache_set args v d)
      end
  end.

(** [for i in range(1, self.max_arity+1)] *)
Fixpoint cache_arities (is : list Z) (max_vars : Z) (d : list (list Z * list string))
    : option (list (list Z * list string)) :=
  match is with
  | [] => Some d
  | i :: rest =>
      match cache_perms (permutations (zrange 0 max_vars) (Z.to_nat i)) d with
      | None => None
      | Some d' => cache_arities rest max_vars d'
      end
  end.

(** [self.cached_atom_args] after the loops; [None] is the [KeyError]. *)
Definition cached_atom_args (max_arity max_vars : Z) : option (list (list Z * list string)) :=
  cache_arities (zrange 1 (max_arity + 1)) max_vars [].

(* ------------------------------------------------------------------ *)
(** ** [Stats.duration] *)

Section StatsModel.
(** Readings of [perf_counter()]: the [n]-th call returns [perf_counter n];
    [sub t1 t0] is the float difference [t1 - t0]. *)
Variable Time : Type.
Variable perf_counter : nat -> Time.
Variable sub : Time -> Time -> Time.

(** The part of a [Stats] object [duration] touches: [self.durations],
    a dict from operation names to lists of durations, and the number of
    clock readings taken so far. *)
Record Stats := mkStats {
  clock_calls : nat;
  durations : list (string * list Time)
}.

(** The [finally] block's update: [self.durations[operation] = [duration]]
    for a new operation (appended, as dicts keep insertion order), else
    [self.durations[operation].append(duration)]. *)
Fixpoint record_duration (operation : string) (duration : Time)
    (ds : list (string * list Time)) : list (string * list Time) :=
  match ds with
  | [] => [(operation, [duration])]
  | (o, xs) :: r =>
      if String.eqb operation o then (o, xs ++ [duration]) :: r
      else (o, xs) :: record_duration operation duration r
  end.

(** [self.durations.get(operation, [])] *)
Fixpoint durations_of (operation : string) (ds : list (string * list Time)) : list Time :=
  match ds with
  | [] => []
  | (o, xs) :: r => if String.eqb operation o then xs else durations_of operation r
  end.

Definition perf_read (st : Stats) : Time * Stats :=
  (perf_counter (clock_calls st), mkStats (S (clock_calls st)) (durations st)).

(** [with stats.duration(operation): body]: the body may raise, and the
    [finally] block records the elapsed time before the exception
    propagates. *)
Definition duration {A : Type} (operation : string)
    (body : Stats -> Stats * result A) (st : Stats) : Stats * result A :=
  let (start, st1) := perf_read st in
  let (st2, r) := body st1 in
  let (end_, st3) := perf_read st2 in
  (mkStats (clock_calls st3)
     (record_duration operation (sub end_ start) (durations st3)), r).

End StatsModel.
Arguments clock_calls {Time} s.
Arguments durations {Time} s.
Arguments mkStats {Time} clock_calls durations.
Arguments record_duration {Time} operation duration ds.
Arguments durations_of {Time} operation ds.
Arguments perf_read {Time} perf_counter st.
Arguments duration {Time} perf_counter sub {A} operation body st.

(* ------------------------------------------------------------------ *)
(** ** Predicates used in the facts *)

(** [lt] is a strict total order: irreflexive, transitive, and any two
    different values are comparable. *)
Definition strict_total {X : Type} (lt : X -> X -> bool) : Prop :=
  (forall x, lt x x = false) /\
  (forall x y z, lt x y = true -> lt y z = true -> lt x z = true) /\
  (forall x y, x = y \/ lt x y = true \/ lt y x = true).

(** No two keys of the [reduce_prog] dictionary are equal. *)
Definition dict_distinct (d : list (Key * Rule)) : Prop :=
  ForallOrdPairs (fun a b => key_eqb (fst a) (fst b) = false) d.

(** What the dictionary of [reduce_prog] holds after the rules [seen]. *)
Definition reduce_inv (seen : list Rule) (d : list (Key * Rule)) : Prop :=
  dict_distinct d /\
  (forall k v, In (k, v) d -> key_eqb k (reduce_key v) = true) /\
  (forall k v, In (k, v) d -> exists pre post, seen = pre ++ v :: post /\
     forall x, In x post -> key_eqb (reduce_key x) k = false) /\
  (forall r, In r seen -> exists k v, In (k, v) d /\ key_eqb (reduce_key r) k = true) /\
  List.length d <= List.length seen.

(** A direction name the bias reader recognises. *)
Definition known_dir (y : string) : Prop := y = "in"%string \/ y = "out"%string.

(** [cached_atom_args] so far: distinct keys, each mapped to its letters. *)
Definition cache_good (d : list (list Z * list string)) : Prop :=
  NoDup (map fst d) /\
  forall k vals, In (k, vals) d ->
  vals = map (fun x => String (ascii_of_nat (65 + Z.to_nat x)) EmptyString) k.

(* ------------------------------------------------------------------ *)
(** ** Sample literals *)

(** [p(A)] with [A] an output, [q(A)] with [A] an input, [r(A)] with [A]
    an output, [p(A)] with [A] an input. *)
Definition p_out_A : Literal := mkLiteral "p" ["A"%string] [DirOut].
Definition q_in_A : Literal := mkLiteral "q" ["A"%string] [DirIn].
Definition r_out_A : Literal := mkLiteral "r" ["A"%string] [DirOut].
Definition p_in_A : Literal := mkLiteral "p" ["A"%string] [DirIn].

(** [p(A,B)] with [A] an input and [B] an output, [r(B)] with [B] an
    input. *)
Definition p_in_A_out_B : Literal := mkLiteral "p" ["A"%string; "B"%string] [DirIn; DirOut].
Definition r_in_B : Literal := mkLiteral "r" ["B"%string] [DirIn].

(** The subsumption operands [p(A) :- q(A).] and [p(A) :- q(A), r(A).]. *)
Definition srule_p_q : SRule :=
  (Some ("p", ["A"]), [("q", ["A"])])%string.
Definition srule_p_qr : SRule :=
  (Some ("p", ["A"]), [("q", ["A"]); ("r", ["A"])])%string.

(** Settings with order-by-space on: one body predicate of arity 2, one
    rule of at most one body literal, one variable. *)
Definition settings_space : Settings :=
  mkSettings false [] false true [("q"%string, 2%Z)] 2 1 1 1 [].

(** Settings in simple mode. *)
Definition settings_simple : Settings :=
  mkSettings false [] false false [] 2 2 3 4 [].

(* ------------------------------------------------------------------ *)
(** ** Facts about the scheduler *)

Lemma issubset_incl (a b : list string) : issubset a b = true -> incl a b.
Proof.
  unfold issubset, mem. rewrite forallb_forall. intros H x Hx.
  specialize (H x Hx). apply existsb_exists in H as [y [Hy Hxy]].
  apply String.eqb_eq in Hxy. subst. exact Hy.
Qed.

Lemma filter_in_all_out (zs : list (mode * string)) :
  forallb (fun p => is_out (fst p)) zs = true ->
  filter (fun p => is_in (fst p)) zs = [].
Proof.
  induction zs as [|[m x] zs IH]; simpl; [reflexivity|].
  destruct m; simpl; try discriminate. exact IH.
Qed.

(** A generator has every argument at an [Out] position, so no inputs. *)
Lemma generator_no_inputs (l : Literal) : is_generator l = true -> inputs l = [].
Proof.
  unfold is_generator, inputs, outputs. intros H. apply Nat.eqb_eq in H.
  set (zs := combine (modes l) (arguments l)) in *.
  assert (Hz : List.length zs <= List.length (arguments l))
    by (unfold zs; rewrite length_combine; lia).
  set (os := filter (fun p => is_out (fst p)) zs) in *.
  assert (H1 : List.length (nodup string_dec (map snd os)) <= List.length os).
  { rewrite <- (length_map snd os). apply NoDup_incl_length;
      [apply NoDup_nodup | intros x Hx; apply nodup_In in Hx; exact Hx]. }
  assert (H2 := filter_length_le (fun p => is_out (fst p)) zs).
  assert (Hall : forallb (fun p => is_out (fst p)) zs = true)
    by (apply filter_length_forallb; fold os in H2 |- *; lia).
  rewrite (filter_in_all_out zs Hall). reflexivity.
Qed.


Lemma lit_eqb_true (a b : Literal) : lit_eqb a b = true <-> a = b.
Proof. unfold lit_eqb. destruct (Literal_eq_dec a b); split; congruence. Qed.

Lemma set_remove_absent (l : Literal) (pool : list Literal) :
  ~ In l pool -> set_remove l pool = pool.
Proof.
  induction pool as [|x pool IH]; simpl; intros H; [reflexivity|].
  destruct (lit_eqb x l) eqn:E.
  - apply lit_eqb_true in E. subst. exfalso. apply H. left. reflexivity.
  - simpl. f_equal. apply IH. intros Hl. apply H. right. exact Hl.
Qed.

Lemma set_remove_perm (l : Literal) (pool : list Literal) :
  NoDup pool -> In l pool -> Permutation pool (l :: set_remove l pool).
Proof.
  induction pool as [|x pool IH]; simpl; intros Hnd Hin; [destruct Hin|].
  inversion Hnd as [|? ? Hx Hnd']; subst.
  destruct (lit_eqb x l) eqn:E.
  - apply lit_eqb_true in E. subst. simpl.
    rewrite (set_remove_absent l pool Hx). reflexivity.
  - simpl. destruct Hin as [<-|Hin].
    + rewrite (proj2 (lit_eqb_true x x) eq_refl) in E. discriminate.
    + eapply perm_trans; [apply perm_skip, (IH Hnd' Hin)|]. apply perm_swap.
Qed.

Lemma set_remove_nodup (l : Literal) (pool : list Literal) :
  NoDup pool -> NoDup (set_remove l pool).
Proof. apply NoDup_filter. Qed.

Lemma insert_by_perm {A : Type} (ltb : A -> A -> bool) (x : A) :
  forall acc, Permutation (insert_by ltb x acc) (x :: acc).
Proof.
  induction acc as [|y r IH]; simpl; [reflexivity|].
  destruct (ltb x y); [reflexivity|].
  eapply perm_trans; [apply perm_skip, IH|]. apply perm_swap.
Qed.

Lemma sort_by_perm {A : Type} (ltb : A -> A -> bool) (l : list A) :
  Permutation (sort_by ltb l) l.
Proof.
  unfold sort_by. rewrite <- (app_nil_r l) at 2. generalize (@nil A).
  induction l as [|x l IH]; simpl; intros acc; [reflexivity|].
  eapply perm_trans; [apply IH|].
  eapply perm_trans; [apply Permutation_app_head, insert_by_perm|].
  apply Permutation_sym, Permutation_middle.
Qed.

Section SchedulerFacts.
Variable set_iter : list Literal -> list Literal.

Lemma select_scan_sound (head : option Literal) (g : list string) :
  forall ls sel l,
  (forall s, sel = Some s -> issubset (inputs s) g = true) ->
  select_scan head g sel ls = Some l ->
  is_generator l = true \/ issubset (inputs l) g = true.
Proof.
  induction ls as [|x ls IH]; simpl; intros sel l Hsel H.
  - right. exact (Hsel l H).
  - destruct (is_generator x) eqn:Eg.
    { injection H as <-. left. exact Eg. }
    destruct (issubset (inputs x) g) eqn:Ei; simpl in H.
    + assert (Hx : forall s, Some x = Some s -> issubset (inputs s) g = true)
        by (intros s Hs; injection Hs as <-; exact Ei).
      destruct head as [h|].
      * destruct (negb (String.eqb (predicate x) (predicate h))).
        { injection H as <-. right. exact Ei. }
        destruct sel as [s|];
          [exact (IH _ _ Hsel H) | exact (IH _ _ Hx H)].
      * destruct sel as [s|];
          [exact (IH _ _ Hsel H) | exact (IH _ _ Hx H)].
    + exact (IH _ _ Hsel H).
Qed.

Lemma select_scan_in (head : option Literal) (g : list string) :
  forall ls sel l,
  select_scan head g sel ls = Some l -> sel = Some l \/ In l ls.
Proof.
  induction ls as [|x ls IH]; simpl; intros sel l H.
  - left. exact H.
  - destruct (is_generator x).
    { injection H as <-. right. left. reflexivity. }
    destruct (negb (issubset (inputs x) g)).
    { destruct (IH _ _ H); auto. }
    destruct head as [h|];
      [destruct (negb (String.eqb (predicate x) (predicate h)));
        [injection H as <-; right; left; reflexivity|] |];
      destruct sel as [s|];
      destruct (IH _ _ H) as [Hs|Hs]; auto;
      injection Hs as <-; right; left; reflexivity.
Qed.

Lemma select_scan_stuck (head : option Literal) (g : list string) :
  forall ls sel,
  (forall l, In l ls -> is_generator l = false /\ issubset (inputs l) g = false) ->
  select_scan head g sel ls = sel.
Proof.
  induction ls as [|x ls IH]; simpl; intros sel H; [reflexivity|].
  destruct (H x (or_introl eq_refl)) as [-> ->]. simpl.
  apply IH. intros l Hl. exact (H l (or_intror Hl)).
Qed.

Lemma order_loop_safe (head : option Literal) :
  forall fuel g pool acc ob,
  order_loop set_iter fuel head g pool acc = Some ob ->
  exists rest, ob = acc ++ rest /\ grounding_safe g rest.
Proof.
  induction fuel as [|fuel IH]; intros g pool acc ob H;
    destruct pool as [|p pool]; simpl in H.
  1,3: injection H as <-; exists []; rewrite app_nil_r; split; [reflexivity | exact I].
  - discriminate.
  - destruct (select_scan head g None (set_iter (p :: pool))) as [l|] eqn:Es;
      [|discriminate].
    apply IH in H as [rest [-> Hrest]].
    exists (l :: rest). split; [rewrite <- app_assoc; reflexivity|].
    split; [|exact Hrest].
    destruct (select_scan_sound head g _ None l (fun s Hs => ltac:(discriminate)) Es)
      as [Hg|Hi].
    + rewrite (generator_no_inputs l Hg). apply incl_nil_l.
    + apply issubset_incl. exact Hi.
Qed.

Lemma grounding_safe_prefix :
  forall pre g l post,
  grounding_safe g (pre ++ l :: post) ->
  incl (inputs l) (g ++ flat_map outputs pre).
Proof.
  induction pre as [|a pre IH]; simpl; intros g l post H.
  - rewrite app_nil_r. exact (proj1 H).
  - rewrite app_assoc. exact (IH _ _ _ (proj2 H)).
Qed.


(** Python's set iteration visits only members of the set. *)
Hypothesis set_iter_members : forall s x, In x (set_iter s) -> In x s.

Lemma order_loop_perm (head : option Literal) :
  forall fuel g pool acc ob,
  NoDup pool ->
  order_loop set_iter fuel head g pool acc = Some ob ->
  Permutation ob (acc ++ pool).
Proof.
  induction fuel as [|fuel IH]; intros g pool acc ob Hnd H;
    destruct pool as [|p pool]; simpl in H.
  1,3: injection H as <-; rewrite app_nil_r; reflexivity.
  - discriminate.
  - destruct (select_scan head g None (set_iter (p :: pool))) as [l|] eqn:Es;
      [|discriminate].
    destruct (select_scan_in head g _ None l Es) as [Hn|Hl]; [discriminate|].
    apply set_iter_members in Hl.
    eapply perm_trans; [exact (IH _ _ _ _ (set_remove_nodup l _ Hnd) H)|].
    rewrite <- app_assoc. apply Permutation_app_head. simpl.
    apply Permutation_sym, set_remove_perm; assumption.
Qed.

Lemma datalog_loop_perm (rc : list ((string * string) * Z)) :
  forall fuel seen pool acc ob,
  NoDup pool ->
  datalog_loop set_iter fuel rc seen pool acc = Some ob ->
  Permutation ob (acc ++ pool).
Proof.
  induction fuel as [|fuel IH]; intros seen pool acc ob Hnd H;
    destruct pool as [|p pool]; simpl in H.
  1,3: injection H as <-; rewrite app_nil_r; reflexivity.
  - discriminate.
  - set (ls := set_iter (p :: pool)) in H.
    assert (Hsel : forall l,
      match find (fun l => issubset (arguments l) seen) ls with
      | Some l => Some l
      | None => hd_error (sort_by (fun a b => Z.ltb (tmp_score rc seen a)
                                                  (tmp_score rc seen b)) ls)
      end = Some l -> In l (p :: pool)).
    { intros l Hl. apply set_iter_members. fold ls.
      destruct (find _ ls) as [x|] eqn:Ef.
      - injection Hl as <-. exact (proj1 (find_some _ _ Ef)).
      - destruct (sort_by _ ls) as [|y ys] eqn:Es; simpl in Hl; [discriminate|].
        injection Hl as <-. eapply Permutation_in; [apply sort_by_perm|].
        rewrite Es. left. reflexivity. }
    destruct (match find _ ls with Some l => Some l | None => _ end) as [l|] eqn:Ef
      in H; [|discriminate].
    specialize (Hsel l Ef).
    eapply perm_trans; [exact (IH _ _ _ _ (set_remove_nodup l _ Hnd) H)|].
    rewrite <- app_assoc. apply Permutation_app_head. simpl.
    apply Permutation_sym, set_remove_perm; assumption.
Qed.

End SchedulerFacts.

(* ------------------------------------------------------------------ *)
(** ** Facts about the stable sort *)

Section SortFacts.
Variable A : Type.
Variable ltb : A -> A -> bool.
(** The keys are totally preordered: [<] is asymmetric and [not >] is
    transitive. *)
Hypothesis ltb_asym : forall x y, ltb x y = true -> ltb y x = false.
Hypothesis nlt_trans : forall x y z, ltb y x = false -> ltb z y = false -> ltb z x = false.

Let key_le (x y : A) : Prop := ltb y x = false.

Lemma insert_by_sorted (x : A) :
  forall acc, StronglySorted key_le acc -> StronglySorted key_le (insert_by ltb x acc).
Proof.
  induction acc as [|y r IH]; simpl; intros H.
  - constructor; constructor.
  - apply StronglySorted_inv in H as [Hr Hy].
    destruct (ltb x y) eqn:E.
    + constructor; [constructor; assumption|].
      constructor; [exact (ltb_asym _ _ E)|].
      rewrite Forall_forall in Hy |- *. intros z Hz.
      exact (nlt_trans _ _ _ (ltb_asym _ _ E) (Hy z Hz)).
    + constructor; [exact (IH Hr)|].
      rewrite Forall_forall in Hy |- *. intros z Hz.
      apply (Permutation_in _ (insert_by_perm ltb x r)) in Hz.
      destruct Hz as [<-|Hz]; [exact E | exact (Hy z Hz)].
Qed.

Lemma sort_by_sorted (l : list A) : StronglySorted key_le (sort_by ltb l).
Proof.
  unfold sort_by. assert (H : StronglySorted key_le []) by constructor.
  revert H. generalize (@nil A).
  induction l as [|x l IH]; simpl; intros acc H; [exact H|].
  apply IH, insert_by_sorted, H.
Qed.

End SortFacts.

Lemma StronglySorted_map {A B : Type} (R : A -> A -> Prop) (R' : B -> B -> Prop)
  (f : A -> B) :
  (forall a b, R a b -> R' (f a) (f b)) ->
  forall l, StronglySorted R l -> StronglySorted R' (map f l).
Proof.
  intros HR. induction l as [|a l IH]; simpl; intros H; [constructor|].
  apply StronglySorted_inv in H as [Hl Ha]. constructor; [exact (IH Hl)|].
  apply Forall_map. eapply Forall_impl; [|exact Ha]. intros b. apply HR.
Qed.

Lemma StronglySorted_pair {A : Type} (R : A -> A -> Prop) :
  forall l1 a l2 b l3,
  StronglySorted R (l1 ++ a :: l2 ++ b :: l3) -> R a b.
Proof.
  induction l1 as [|x l1 IH]; simpl; intros a l2 b l3 H.
  - apply StronglySorted_inv in H as [_ Ha]. rewrite Forall_forall in Ha.
    apply Ha, in_or_app. right. left. reflexivity.
  - apply StronglySorted_inv in H as [H _]. exact (IH _ _ _ _ H).
Qed.

(** Reasoning about a [for] loop that may raise, by an invariant. *)
Lemma fold_result_inv {A B : Type} (P : B -> Prop) (f : B -> A -> result B) :
  (forall b x b', P b -> f b x = Ok b' -> P b') ->
  forall l b b', P b -> fold_result f l b = Ok b' -> P b'.
Proof.
  intros Hf. induction l as [|x l IH]; simpl; intros b b' Hb H.
  - injection H as <-. exact Hb.
  - destruct (f b x) as [b''|e] eqn:E; [|discriminate].
    exact (IH _ _ (Hf _ _ _ Hb E) H).
Qed.

Ltac key_cases :=
  repeat match goal with
  | |- context [Nat.ltb ?a ?b] => destruct (Nat.ltb_spec a b)
  | |- context [Z.ltb ?a ?b] => destruct (Z.ltb_spec a b)
  | |- context [Z.eqb ?a ?b] => destruct (Z.eqb_spec a b)
  | H : context [Nat.ltb ?a ?b] |- _ => destruct (Nat.ltb_spec a b)
  | H : context [Z.ltb ?a ?b] |- _ => destruct (Z.ltb_spec a b)
  | H : context [Z.eqb ?a ?b] |- _ => destruct (Z.eqb_spec a b)
  end; simpl in *; try discriminate; try reflexivity; try lia.

Lemma prog_key_ltb_asym (x y : Rule) :
  prog_key_ltb x y = true -> prog_key_ltb y x = false.
Proof.
  unfold prog_key_ltb, tuple_ltb.
  destruct (prog_key x) as [a n], (prog_key y) as [b m]; simpl.
  destruct a, b; simpl; key_cases.
Qed.

Lemma prog_key_nlt_trans (x y z : Rule) :
  prog_key_ltb y x = false -> prog_key_ltb z y = false -> prog_key_ltb z x = false.
Proof.
  unfold prog_key_ltb, tuple_ltb.
  destruct (prog_key x) as [a n], (prog_key y) as [b m], (prog_key z) as [c k]; simpl.
  destruct a, b, c; simpl; key_cases.
Qed.

Lemma xentry_ltb_asym (x y : XEntry) :
  xentry_ltb x y = true -> xentry_ltb y x = false.
Proof.
  destruct x as [[[l1 v1] r1] h1], y as [[[l2 v2] r2] h2].
  unfold xentry_ltb, tuple_ltb; simpl. key_cases.
Qed.

Lemma xentry_nlt_trans (x y z : XEntry) :
  xentry_ltb y x = false -> xentry_ltb z y = false -> xentry_ltb z x = false.
Proof.
  destruct x as [[[l1 v1] r1] h1], y as [[[l2 v2] r2] h2], z as [[[l3 v3] r3] h3].
  unfold xentry_ltb, tuple_ltb; simpl. key_cases.
Qed.

(* ------------------------------------------------------------------ *)
(** ** Scheduler theorems *)

(** Every error [order_rule] raises in mode-directed scheduling carries the
    same message, built from the rule alone. *)
Lemma order_rule_error_message (set_iter : list Literal -> list Literal)
  (rule : Rule) (settings : option Settings) (e : exn) :
  settings_datalog settings = false ->
  order_rule set_iter rule settings = Raise e ->
  e = ValueError (grounding_message rule).
Proof.
  intros Hd H.
  assert (Hm : order_rule_modes set_iter rule = Raise e).
  { destruct settings as [s|]; simpl in *; [rewrite Hd in H|]; exact H. }
  destruct rule as [[h|] body]; simpl in Hm;
    destruct (order_loop set_iter _ _ _ _ []); congruence.
Qed.

(** C1: for a rule the mode-directed scheduler orders without error, the
    input variables of every literal of the ordered body are among the
    head's input variables and the outputs of the literals before it. *)
Theorem order_rule_grounding_safe (set_iter : list Literal -> list Literal)
  (rule : Rule) (settings : option Settings) (head : option Literal)
  (ordered_body : list Literal) :
  settings_datalog settings = false ->
  order_rule set_iter rule settings = Ok (head, ordered_body) ->
  forall pre l post, ordered_body = pre ++ l :: post ->
  incl (inputs l) (head_inputs (fst rule) ++ flat_map outputs pre).
Proof.
  intros Hd H pre l post ->.
  assert (Hm : order_rule_modes set_iter rule = Ok (head, pre ++ l :: post)).
  { destruct settings as [s|]; simpl in *; [rewrite Hd in H|]; exact H. }
  destruct rule as [h0 body]. unfold order_rule_modes in Hm. simpl.
  destruct h0 as [h|]; simpl in Hm;
    destruct (order_loop set_iter _ _ _ _ []) as [ob|] eqn:E; try discriminate;
    injection Hm as _ Hob; subst ob;
    destruct (order_loop_safe set_iter _ _ _ _ _ _ E) as [rest [Hr Hs]];
    simpl in Hr; subst rest;
    exact (grounding_safe_prefix _ _ _ _ Hs).
Qed.

(** C2: for a rule whose body (a set: no duplicates) is ordered without
    raising, the ordered body is a permutation of the body; this holds
    for both scheduling policies and any set iteration order. *)
Theorem order_rule_permutation (set_iter : list Literal -> list Literal)
  (set_iter_members : forall s x, In x (set_iter s) -> In x s)
  (rule : Rule) (settings : option Settings) (head : option Literal)
  (ordered_body : list Literal) :
  NoDup (snd rule) ->
  order_rule set_iter rule settings = Ok (head, ordered_body) ->
  Permutation ordered_body (snd rule).
Proof.
  destruct rule as [h0 body]; simpl; intros Hnd H.
  assert (E : nodup Literal_eq_dec body = body) by (apply nodup_fixed_point; exact Hnd).
  enough (Hp : Permutation ordered_body (to_set body))
    by (unfold to_set in Hp; rewrite E in Hp; exact Hp).
  assert (Hset : NoDup (to_set body)) by apply NoDup_nodup.
  assert (Hmodes : order_rule_modes set_iter (h0, body) = Ok (head, ordered_body) ->
                   Permutation ordered_body (to_set body)).
  { intros Hm. destruct h0 as [h|]; simpl in Hm;
      destruct (order_loop set_iter _ _ _ _ []) as [ob|] eqn:El; try discriminate;
      injection Hm as _ <-;
      exact (order_loop_perm set_iter set_iter_members _ _ _ _ _ _ Hset El). }
  destruct settings as [s|]; simpl in H; [|exact (Hmodes H)].
  destruct (datalog s); [|exact (Hmodes H)].
  unfold order_rule_datalog in H.
  destruct (datalog_loop set_iter _ _ _ _ []) as [ob|] eqn:El; [|discriminate].
  injection H as _ <-.
  exact (datalog_loop_perm set_iter set_iter_members _ _ _ _ _ _ Hset El).
Qed.

Lemma order_rule_grounding_safe_witness :
  settings_datalog None = false /\
  order_rule (fun s => s) (None, [q_in_A; r_out_A]) None
    = Ok (None, [r_out_A; q_in_A]) /\
  (forall pre l post, [r_out_A; q_in_A] = pre ++ l :: post ->
   incl (inputs l) (head_inputs None ++ flat_map outputs pre)).
Proof.
  split; [reflexivity|]. split; [reflexivity|].
  apply (order_rule_grounding_safe (fun s => s) (None, [q_in_A; r_out_A]) None None);
    reflexivity.
Defined.

Lemma order_rule_permutation_witness :
  NoDup [q_in_A; r_out_A] /\
  order_rule (fun s => s) (None, [q_in_A; r_out_A]) None
    = Ok (None, [r_out_A; q_in_A]) /\
  Permutation [r_out_A; q_in_A] [q_in_A; r_out_A].
Proof.
  assert (Hnd : NoDup [q_in_A; r_out_A]).
  { constructor; [simpl; intros [H|[]]; discriminate|].
    constructor; [intros []|constructor]. }
  split; [exact Hnd|]. split; [reflexivity|].
  apply (order_rule_permutation (fun s => s) (fun s x H => H)
           (None, [q_in_A; r_out_A]) None None); [exact Hnd | reflexivity].
Defined.

(** C10: for a constraint (no head) the mode-directed scheduler runs the
    selection loop from an empty set of grounded variables; the loop
    raises as soon as every remaining literal is a non-generator whose
    inputs are not all grounded; in particular a non-empty constraint
    body made only of non-generators with inputs raises. *)
Theorem order_rule_constraint_runs_loop (set_iter : list Literal -> list Literal)
  (set_iter_members : forall s x, In x (set_iter s) -> In x s)
  (settings : option Settings) (body : list Literal) :
  settings_datalog settings = false ->
  order_rule set_iter (None, body) settings =
    match order_loop set_iter (List.length (to_set body)) None [] (to_set body) [] with
    | Some ordered_body => Ok (None, ordered_body)
    | None => Raise (ValueError (grounding_message (None, body)))
    end
  /\ (forall fuel grounded pool acc,
        pool <> [] ->
        (forall l, In l pool -> is_generator l = false /\ issubset (inputs l) grounded = false) ->
        order_loop set_iter fuel None grounded pool acc = None)
  /\ (body <> [] ->
      (forall l, In l body -> is_generator l = false /\ inputs l <> []) ->
      order_rule set_iter (None, body) settings
        = Raise (ValueError (grounding_message (None, body)))).
Proof.
  intros Hd.
  assert (Heq : order_rule set_iter (None, body) settings =
    match order_loop set_iter (List.length (to_set body)) None [] (to_set body) [] with
    | Some ordered_body => Ok (None, ordered_body)
    | None => Raise (ValueError (grounding_message (None, body)))
    end).
  { destruct settings as [s|]; simpl in *; [rewrite Hd|]; reflexivity. }
  assert (Hstuck : forall fuel grounded pool acc,
        pool <> [] ->
        (forall l, In l pool -> is_generator l = false /\ issubset (inputs l) grounded = false) ->
        order_loop set_iter fuel None grounded pool acc = None).
  { intros fuel g pool acc Hne Hall.
    destruct pool as [|p pool]; [contradiction|].
    destruct fuel; simpl; [reflexivity|].
    rewrite select_scan_stuck; [reflexivity|].
    intros l Hl. exact (Hall l (set_iter_members _ _ Hl)). }
  split; [exact Heq|]. split; [exact Hstuck|].
  intros Hne Hall. rewrite Heq, Hstuck; [reflexivity| |].
  - destruct body as [|b body]; [contradiction|].
    intros Hnil. assert (Hb : In b (to_set (b :: body)))
      by (apply nodup_In; left; reflexivity).
    rewrite Hnil in Hb. destruct Hb.
  - intros l Hl. apply nodup_In in Hl. destruct (Hall l Hl) as [Hg Hi].
    split; [exact Hg|].
    destruct (inputs l) as [|x xs]; [contradiction|]. reflexivity.
Qed.

Lemma order_rule_constraint_runs_loop_witness :
  settings_datalog None = false /\
  [q_in_A] <> [] /\
  (forall l, In l [q_in_A] -> is_generator l = false /\ inputs l <> []) /\
  order_rule (fun s => s) (None, [q_in_A]) None
    = Raise (ValueError (grounding_message (None, [q_in_A]))).
Proof.
  assert (Hne : [q_in_A] <> []) by discriminate.
  assert (Hall : forall l, In l [q_in_A] -> is_generator l = false /\ inputs l <> []).
  { intros l [<-|[]]. split; [reflexivity | discriminate]. }
  split; [reflexivity|]. split; [exact Hne|]. split; [exact Hall|].
  exact (proj2 (proj2 (order_rule_constraint_runs_loop (fun s => s) (fun s x H => H)
                          None [q_in_A] eq_refl)) Hne Hall).
Defined.

(** C4 (failing input): the head [p(A)] has no input variable, yet
    [order_rule] does not return [p(A) :- q(A).] unchanged: [head.inputs]
    is a frozenset, never equal to the list [[]], so the selection loop
    runs from no grounded variable and raises on [q(A)], whatever the set
    iteration order. *)
Theorem order_rule_head_without_inputs (set_iter : list Literal -> list Literal)
  (set_iter_members : forall s x, In x (set_iter s) -> In x s) :
  inputs p_out_A = [] /\
  order_rule set_iter (Some p_out_A, [q_in_A]) None
    = Raise (ValueError "None in clause p(A):- q(A). could not be grounded").
Proof.
  split; [reflexivity|].
  unfold order_rule, order_rule_modes. simpl.
  rewrite select_scan_stuck; [reflexivity|].
  intros l Hl. apply set_iter_members in Hl. destruct Hl as [<-|[]].
  split; reflexivity.
Qed.

Lemma order_rule_head_without_inputs_witness :
  (forall s x, In x ((fun s : list Literal => s) s) -> In x s) /\
  inputs p_out_A = [] /\
  order_rule (fun s => s) (Some p_out_A, [q_in_A]) None
    = Raise (ValueError "None in clause p(A):- q(A). could not be grounded").
Proof.
  split; [exact (fun s x H => H)|].
  exact (order_rule_head_without_inputs (fun s => s) (fun s x H => H)).
Defined.

(** C6 (failing input): scheduling the constraint [:- q(A).] with [A] an
    input raises [ValueError] whose message starts with [None] (the
    variable [selected_literal] it interpolates is [None] there) instead
    of naming the stuck literal [q(A)]. *)
Theorem order_rule_error_names_none :
  order_rule (fun s => s) (None, [q_in_A]) None
    = Raise (ValueError "None in clause :- q(A). could not be grounded").
Proof. reflexivity. Qed.

(* ------------------------------------------------------------------ *)
(** ** Canonicalisation and subsumption theorems *)

Lemma list_eqb_true (a b : list string) : list_eqb a b = true <-> a = b.
Proof.
  revert b. induction a as [|x a IH]; intros [|y b]; simpl;
    try (split; congruence).
  rewrite andb_true_iff, String.eqb_eq, IH. split; [intros [-> ->]; reflexivity|].
  intros H. injection H as -> ->. split; reflexivity.
Qed.

Lemma sig_eqb_true (a b : Sig) : sig_eqb a b = true <-> a = b.
Proof.
  destruct a as [pa aa], b as [pb ab]. unfold sig_eqb; simpl.
  rewrite andb_true_iff, String.eqb_eq, list_eqb_true.
  split; [intros [-> ->]; reflexivity | intros H; injection H as -> ->; split; reflexivity].
Qed.

Lemma sig_subset_incl (a b : list Sig) : sig_subset a b = true <-> incl a b.
Proof.
  unfold sig_subset. rewrite forallb_forall. split.
  - intros H x Hx. pose proof (H x Hx) as Hb.
    apply existsb_exists in Hb as [y [Hy Hxy]]. apply sig_eqb_true in Hxy. subst. exact Hy.
  - intros H x Hx. apply existsb_exists. exists x.
    split; [exact (H x Hx) | apply sig_eqb_true; reflexivity].
Qed.

(** C3 (as the code has it): [R1] subsumes [R2] exactly when [R1] has no
    head or [R2] has one, and the body of [R1] is contained in that of
    [R2]; a program subsumes another when each rule of the latter is
    subsumed by a rule of the former; [{p(A):-q(A).}] subsumes
    [{p(A):-q(A),r(A).}] and not the converse. *)
Theorem rule_subsumes_spec :
  (forall h1 b1 h2 b2,
     rule_subsumes (h1, b1) (h2, b2) = true <->
     ((h1 = None \/ h2 <> None) /\ incl b1 b2))
  /\ (forall prog1 prog2,
        theory_subsumes prog1 prog2 = true <->
        (forall r2, In r2 prog2 -> exists r1, In r1 prog1 /\ rule_subsumes r1 r2 = true))
  /\ theory_subsumes [srule_p_q] [srule_p_qr] = true
  /\ theory_subsumes [srule_p_qr] [srule_p_q] = false.
Proof.
  split; [|split; [|split; reflexivity]].
  - intros h1 b1 h2 b2. unfold rule_subsumes. rewrite <- sig_subset_incl.
    destruct h1 as [x|], h2 as [y|]; split.
    all: try (intros H; split; [|exact H]; first [left; reflexivity | right; discriminate]).
    all: try (intros [_ H]; exact H).
    + discriminate.
    + intros [[H|H] _]; [discriminate | contradiction].
  - intros prog1 prog2. unfold theory_subsumes. rewrite forallb_forall.
    split; intros H r2 Hr2; specialize (H r2 Hr2).
    + apply existsb_exists in H. exact H.
    + apply existsb_exists. exact H.
Qed.

(** C3 as stated fails: with [R1 = p(A) :- q(A).] and the constraint
    [R2 = :- q(A).], [R1] has a head and the bodies are equal, yet
    [rule_subsumes(R1, R2)] is false. *)
Lemma rule_subsumes_head_guard_counterexample :
  ~ (forall h1 b1 h2 b2,
       rule_subsumes (h1, b1) (h2, b2) = true <->
       ((h1 <> None \/ h2 = None) /\ incl b1 b2)).
Proof.
  intros H.
  destruct (H (Some ("p", ["A"])) [("q", ["A"])] None [("q", ["A"])])%string as [_ H2].
  discriminate (H2 (conj (or_intror eq_refl) (incl_refl _))).
Qed.

(** C5 (failing input): [reduce_prog] dereferences [head.predicate] for
    every rule, so a program of constraints raises [AttributeError]
    instead of being deduplicated; rules with heads whose bodies differ
    only in literal order do reduce to one entry. *)
Theorem reduce_prog_headless_raises :
  reduce_prog [(None, [q_in_A]); (None, [q_in_A])]
    = Raise (AttributeError "'NoneType' object has no attribute 'predicate'")
  /\ reduce_prog [(Some p_in_A_out_B, [q_in_A; r_in_B]);
                  (Some p_in_A_out_B, [r_in_B; q_in_A])]
    = Ok [(Some p_in_A_out_B, [r_in_B; q_in_A])].
Proof. split; reflexivity. Qed.

(** C9: in [order_prog]'s output every non-recursive rule precedes every
    recursive one, and rules of the same class come by ascending body
    length. *)
Theorem order_prog_canonical (prog : list Rule) :
  forall l1 r1 l2 r2 l3,
  order_prog prog = l1 ++ r1 :: l2 ++ r2 :: l3 ->
  (rule_is_recursive r2 = false -> rule_is_recursive r1 = false) /\
  (rule_is_recursive r1 = rule_is_recursive r2 ->
   List.length (snd r1) <= List.length (snd r2)).
Proof.
  intros l1 r1 l2 r2 l3 H.
  pose proof (sort_by_sorted Rule prog_key_ltb prog_key_ltb_asym prog_key_nlt_trans prog)
    as Hs.
  unfold order_prog in H. rewrite H in Hs.
  apply StronglySorted_pair in Hs. simpl in Hs.
  unfold prog_key_ltb, tuple_ltb, prog_key in Hs. simpl in Hs.
  destruct (rule_is_recursive r1), (rule_is_recursive r2); simpl in Hs;
    split; intros; try discriminate; try reflexivity;
    apply Nat.ltb_ge; exact Hs.
Qed.

Lemma order_prog_canonical_witness :
  order_prog [(Some p_in_A, [p_in_A]); (Some p_in_A, [q_in_A; r_out_A])]
    = [] ++ (Some p_in_A, [q_in_A; r_out_A]) :: [] ++ (Some p_in_A, [p_in_A]) :: [] /\
  (rule_is_recursive (Some p_in_A, [p_in_A]) = false ->
   rule_is_recursive (Some p_in_A, [q_in_A; r_out_A]) = false) /\
  (rule_is_recursive (Some p_in_A, [q_in_A; r_out_A])
     = rule_is_recursive (Some p_in_A, [p_in_A]) ->
   List.length (snd (Some p_in_A, [q_in_A; r_out_A]))
     <= List.length (snd (Some p_in_A, [p_in_A]))).
Proof.
  split; [reflexivity|].
  apply (order_prog_canonical [(Some p_in_A, [p_in_A]); (Some p_in_A, [q_in_A; r_out_A])]
           [] _ [] _ []).
  reflexivity.
Defined.

(* ------------------------------------------------------------------ *)
(** ** Search-order theorems *)

Lemma zrange_In (a b k : Z) : In k (zrange a b) <-> (a <= k < b)%Z.
Proof.
  unfold zrange. rewrite in_map_iff. split.
  - intros [i [<- Hi]]. apply in_seq in Hi. lia.
  - intros Hk. exists (Z.to_nat (k - a)). split; [lia|]. apply in_seq. lia.
Qed.

Lemma zrange_sorted (a b : Z) : StronglySorted Z.lt (zrange a b).
Proof.
  unfold zrange. generalize (Z.to_nat (b - a)) as n. intros n.
  generalize 0%nat as s. induction n as [|n IH]; intros s; simpl; constructor.
  - apply IH.
  - rewrite Forall_forall. intros x Hx. apply in_map_iff in Hx as [i [<- Hi]].
    apply in_seq in Hi. lia.
Qed.

Lemma vars_loop_nonzero (predicates arity size_rules size_literals : Z) :
  forall vs ret ret',
  (forall l v r h, In (l, v, r, h) ret -> h <> 0%Z) ->
  vars_loop predicates arity size_rules size_literals vs ret = Ok ret' ->
  (forall l v r h, In (l, v, r, h) ret' -> h <> 0%Z).
Proof.
  induction vs as [|x vs IH]; simpl; intros ret ret' Hret H.
  - injection H as <-. exact Hret.
  - destruct (x >? size_literals * arity - 1)%Z.
    { injection H as <-. exact Hret. }
    destruct (hspace_of predicates x arity size_literals) as [hs|e]; [|discriminate].
    destruct (hs =? 0)%Z eqn:E0; [exact (IH _ _ Hret H)|].
    destruct ((size_rules >? 1)%Z && (size_literals <? 5)%Z); [exact (IH _ _ Hret H)|].
    refine (IH _ _ _ H).
    intros l v r h Hin. apply in_app_or in Hin as [Hin|[Hin|[]]].
    + exact (Hret _ _ _ _ Hin).
    + injection Hin as _ _ _ <-. apply Z.eqb_neq. exact E0.
Qed.

(** C7: with order-by-space requested, every entry of the search order
    carries an estimated space, never zero, and the entries are sorted by
    [(estimated_space, literal_count)]: the estimated spaces never
    decrease. *)
Theorem bias_order_space_sorted (settings : Settings) (max_size : Z)
  (settings' : Settings) (order : list Entry) :
  order_space settings = true ->
  bias_order settings max_size = Ok (settings', order) ->
  (forall e, In e order -> exists h, entry_space e = Some h /\ h <> 0%Z)
  /\ (forall l1 e1 l2 e2 l3 h1 h2,
        order = l1 ++ e1 :: l2 ++ e2 :: l3 ->
        entry_space e1 = Some h1 -> entry_space e2 = Some h2 ->
        (h1 < h2)%Z \/ (h1 = h2 /\ (entry_literals e1 <= entry_literals e2)%Z)).
Proof.
  intros Hos H. unfold bias_order in H. rewrite Hos, orb_true_r in H. simpl in H.
  match type of H with
  | match ?sw with Ok _ => _ | Raise _ => _ end = _ =>
      destruct sw as [ret|e] eqn:Es; [|discriminate]
  end.
  injection H as _ <-.
  split.
  - assert (Hnz : forall l v r h, In (l, v, r, h) ret -> h <> 0%Z).
    { set (P := fun ret : list XEntry => forall l v r h, In (l, v, r, h) ret -> h <> 0%Z).
      refine (fold_result_inv P _ _ _ _ _ _ Es); [|intros l v r h []].
      intros b sr b' Hb Hf.
      refine (fold_result_inv P _ _ _ _ _ Hb Hf).
      intros c sl c' Hc Hv. exact (vars_loop_nonzero _ _ _ _ _ _ _ Hc Hv). }
    intros e He. apply in_map_iff in He as [[[[l v] r] h] [<- Ht]].
    apply (Permutation_in _ (sort_by_perm xentry_ltb ret)) in Ht.
    exists h. split; [reflexivity | exact (Hnz _ _ _ _ Ht)].
  - intros l1 e1 l2 e2 l3 h1 h2 Hsplit.
    pose proof (sort_by_sorted XEntry xentry_ltb xentry_ltb_asym xentry_nlt_trans ret)
      as Hs.
    eapply (StronglySorted_map _
      (fun e1 e2 => forall h1 h2, entry_space e1 = Some h1 -> entry_space e2 = Some h2 ->
         (h1 < h2)%Z \/ (h1 = h2 /\ (entry_literals e1 <= entry_literals e2)%Z))
      to_entry) in Hs.
    + rewrite Hsplit in Hs. exact (StronglySorted_pair _ _ _ _ _ _ Hs h1 h2).
    + intros [[[la va] ra] ha] [[[lb vb] rb] hb] Hab x y Hx Hy.
      simpl in Hx, Hy. injection Hx as <-. injection Hy as <-. simpl.
      unfold xentry_ltb, tuple_ltb in Hab. simpl in Hab. key_cases.
Qed.

Lemma bias_order_space_sorted_witness :
  order_space settings_space = true /\
  bias_order settings_space 5
    = Ok (set_search_order settings_space [(2, 1, 1, Some 1); (1, 1, 1, Some 2)]%Z,
          [(2, 1, 1, Some 1); (1, 1, 1, Some 2)]%Z) /\
  (forall e, In e [(2, 1, 1, Some 1); (1, 1, 1, Some 2)]%Z ->
     exists h, entry_space e = Some h /\ h <> 0%Z)
  /\ (forall l1 e1 l2 e2 l3 h1 h2,
        [(2, 1, 1, Some 1); (1, 1, 1, Some 2)]%Z = l1 ++ e1 :: l2 ++ e2 :: l3 ->
        entry_space e1 = Some h1 -> entry_space e2 = Some h2 ->
        (h1 < h2)%Z \/ (h1 = h2 /\ (entry_literals e1 <= entry_literals e2)%Z)).
Proof.
  split; [reflexivity|]. split; [vm_compute; reflexivity|].
  apply (bias_order_space_sorted settings_space 5
           (set_search_order settings_space [(2, 1, 1, Some 1); (1, 1, 1, Some 2)]%Z));
    [reflexivity | vm_compute; reflexivity].
Defined.

(** C8: in simple mode [bias_order] returns, unchanged settings aside, one
    entry [(k, max_vars, max_rules, None)] per literal count [k] of
    [range(1, max_size)], i.e. exactly the [k] with [1 <= k <= max_size - 1],
    in strictly ascending order; for [max_size = 5] these are the four
    entries for [1, 2, 3, 4]. *)
Theorem bias_order_simple_mode (settings : Settings) (max_size : Z) :
  no_bias settings = false -> order_space settings = false ->
  bias_order settings max_size
    = Ok (settings, map (fun k => (k, max_vars settings, max_rules settings, None))
                        (zrange 1 max_size))
  /\ (forall k, In k (zrange 1 max_size) <-> (1 <= k <= max_size - 1)%Z)
  /\ StronglySorted Z.lt (zrange 1 max_size)
  /\ bias_order settings 5
       = Ok (settings, [(1, max_vars settings, max_rules settings, None);
                        (2, max_vars settings, max_rules settings, None);
                        (3, max_vars settings, max_rules settings, None);
                        (4, max_vars settings, max_rules settings, None)]%Z).
Proof.
  intros Hnb Hos. unfold bias_order. rewrite Hnb, Hos. simpl.
  split; [reflexivity|]. split; [|split; [apply zrange_sorted | reflexivity]].
  intros k. rewrite zrange_In. lia.
Qed.

Lemma bias_order_simple_mode_witness :
  no_bias settings_simple = false /\ order_space settings_simple = false /\
  bias_order settings_simple 5
    = Ok (settings_simple, [(1, 4, 2, None); (2, 4, 2, None);
                            (3, 4, 2, None); (4, 4, 2, None)]%Z).
Proof.
  split; [reflexivity|]. split; [reflexivity|].
  exact (proj2 (proj2 (proj2 (bias_order_simple_mode settings_simple 5 eq_refl eq_refl)))).
Defined.

(* ------------------------------------------------------------------ *)
(** ** Completeness of the mode-directed scheduler *)

Lemma incl_issubset (a b : list string) : incl a b -> issubset a b = true.
Proof.
  intros H. unfold issubset, mem. apply forallb_forall. intros x Hx.
  apply existsb_exists. exists x. split; [exact (H x Hx) | apply String.eqb_refl].
Qed.

Lemma select_scan_some_sel (head : option Literal) (g : list string) :
  forall ls s, select_scan head g (Some s) ls <> None.
Proof.
  induction ls as [|x ls IH]; simpl; intros s; [discriminate|].
  destruct (is_generator x); [discriminate|].
  destruct (negb (issubset (inputs x) g)); [apply IH|].
  destruct head as [h|]; [destruct (negb (String.eqb (predicate x) (predicate h)));
    [discriminate|]|]; apply IH.
Qed.

Lemma select_scan_some (head : option Literal) (g : list string) :
  forall ls sel x, In x ls -> issubset (inputs x) g = true ->
  select_scan head g sel ls <> None.
Proof.
  induction ls as [|y ls IH]; simpl; intros sel x Hx Hi; [destruct Hx|].
  destruct (is_generator y); [discriminate|].
  destruct Hx as [->|Hx].
  - rewrite Hi. simpl.
    destruct head as [h|]; [destruct (negb (String.eqb (predicate x) (predicate h)));
      [discriminate|]|]; destruct sel; apply select_scan_some_sel.
  - destruct (negb (issubset (inputs y) g)); [exact (IH _ _ Hx Hi)|].
    destruct head as [h|]; [destruct (negb (String.eqb (predicate y) (predicate h)));
      [discriminate|]|]; destruct sel;
      first [exact (IH _ _ Hx Hi) | apply select_scan_some_sel].
Qed.

Lemma arrangement_safe_remove (g : list string) (pre : list Literal) (l : Literal)
  (post : list Literal) :
  arrangement_safe g (pre ++ l :: post) ->
  arrangement_safe (g ++ outputs l) (pre ++ post).
Proof.
  intros H a y b Hab z Hz.
  apply app_eq_app in Hab as [c [[Hpre Hc]|[Ha Hc]]].
  - subst pre. destruct c as [|w c]; simpl in Hc.
    + subst post. rewrite app_nil_r in *.
      specialize (H (a ++ [l]) y b ltac:(rewrite <- app_assoc; reflexivity) z Hz).
      rewrite flat_map_app in H. simpl in H. rewrite !in_app_iff in *. simpl in *. tauto.
    + injection Hc as <- ->.
      specialize (H a y (c ++ l :: post) ltac:(rewrite <- app_assoc; reflexivity) z Hz).
      rewrite !in_app_iff in *. tauto.
  - subst a post.
    specialize (H (pre ++ l :: c) y b ltac:(rewrite <- app_assoc; reflexivity) z Hz).
    rewrite !flat_map_app in *. simpl in H. rewrite !in_app_iff in *. simpl in *. tauto.
Qed.

Section Completeness.
Variable set_iter : list Literal -> list Literal.
Hypothesis set_iter_members : forall s x, In x (set_iter s) -> In x s.
Hypothesis set_iter_visits : forall s x, In x s -> In x (set_iter s).

Lemma order_loop_complete (head : option Literal) :
  forall fuel g pool acc,
  NoDup pool -> (List.length pool <= fuel)%nat ->
  (exists ob, Permutation ob pool /\ arrangement_safe g ob) ->
  exists res, order_loop set_iter fuel head g pool acc = Some res.
Proof.
  induction fuel as [|fuel IH]; intros g pool acc Hnd Hlen [ob [Hp Hs]];
    destruct pool as [|p pool]; cbn [order_loop].
  1,3: eexists; reflexivity.
  - simpl in Hlen. lia.
  - destruct ob as [|x rest].
    { apply Permutation_nil in Hp. discriminate. }
    assert (Hx : issubset (inputs x) g = true).
    { apply incl_issubset. specialize (Hs [] x rest eq_refl). simpl in Hs.
      rewrite app_nil_r in Hs. exact Hs. }
    assert (Hxin : In x (set_iter (p :: pool)))
      by (apply set_iter_visits; eapply Permutation_in; [exact Hp | left; reflexivity]).
    destruct (select_scan head g None (set_iter (p :: pool))) as [l|] eqn:Es;
      [|exfalso; exact (select_scan_some head g _ None x Hxin Hx Es)].
    destruct (select_scan_in head g _ None l Es) as [Hn|Hl]; [discriminate|].
    apply set_iter_members in Hl.
    assert (Hrm := set_remove_perm l _ Hnd Hl).
    assert (Hlo : In l (x :: rest)) by (eapply Permutation_in; [symmetry; exact Hp | exact Hl]).
    apply in_split in Hlo as [pre [post Hsplit]].
    apply IH; [apply set_remove_nodup; exact Hnd | |].
    + apply Permutation_length in Hrm. cbn [Datatypes.length] in Hrm, Hlen. lia.
    + exists (pre ++ post). split.
      * rewrite Hsplit in Hp.
        apply (Permutation_app_inv pre post [] _ l).
        simpl. eapply perm_trans; [exact Hp | exact Hrm].
      * apply arrangement_safe_remove. rewrite <- Hsplit. exact Hs.
Qed.

End Completeness.

(** The mode-directed scheduler is complete: when the literals of a body
    (a set) can be arranged in some grounding-safe order from the head's
    input variables, [order_rule] does not raise, whatever the set
    iteration order. *)
Theorem order_rule_complete (set_iter : list Literal -> list Literal)
  (set_iter_members : forall s x, In x (set_iter s) -> In x s)
  (set_iter_visits : forall s x, In x s -> In x (set_iter s))
  (rule : Rule) (settings : option Settings) :
  settings_datalog settings = false ->
  NoDup (snd rule) ->
  (exists ob, Permutation ob (snd rule) /\ arrangement_safe (head_inputs (fst rule)) ob) ->
  exists ordered_body, order_rule set_iter rule settings = Ok (fst rule, ordered_body).
Proof.
  intros Hd Hnd Hex.
  assert (Hm : order_rule set_iter rule settings = order_rule_modes set_iter rule)
    by (destruct settings as [s|]; simpl in *; [rewrite Hd|]; reflexivity).
  rewrite Hm. destruct rule as [h0 body]. simpl in *.
  assert (E : to_set body = body) by (apply nodup_fixed_point; exact Hnd).
  destruct (order_loop_complete set_iter set_iter_members set_iter_visits h0
              (List.length (to_set body)) (head_inputs h0) (to_set body) []
              (NoDup_nodup _ _) (le_n _)) as [res Hres].
  { rewrite E. exact Hex. }
  exists res. destruct h0 as [h|]; simpl in *; rewrite Hres; reflexivity.
Qed.

Lemma order_rule_complete_witness :
  (forall s x, In x ((fun s : list Literal => s) s) -> In x s) /\
  (forall s x, In x s -> In x ((fun s : list Literal => s) s)) /\
  settings_datalog None = false /\
  NoDup [q_in_A; r_out_A] /\
  (exists ob, Permutation ob [q_in_A; r_out_A] /\ arrangement_safe [] ob) /\
  (exists ordered_body,
     order_rule (fun s => s) (None, [q_in_A; r_out_A]) None = Ok (None, ordered_body)).
Proof.
  assert (Hnd : NoDup [q_in_A; r_out_A]).
  { constructor; [simpl; intros [H|[]]; discriminate|].
    constructor; [intros []|constructor]. }
  assert (Hex : exists ob, Permutation ob [q_in_A; r_out_A] /\ arrangement_safe [] ob).
  { exists [r_out_A; q_in_A]. split; [apply perm_swap|].
    intros pre l post H.
    destruct pre as [|a [|b pre]]; simpl in H; injection H as <- H; subst.
    - intros z [].
    - intros z Hz. simpl. exact Hz.
    - destruct pre; discriminate. }
  split; [exact (fun s x H => H)|]. split; [exact (fun s x H => H)|].
  split; [reflexivity|]. split; [exact Hnd|]. split; [exact Hex|].
  exact (order_rule_complete (fun s => s) (fun s x H => H) (fun s x H => H)
           (None, [q_in_A; r_out_A]) None eq_refl Hnd Hex).
Defined.

(* ------------------------------------------------------------------ *)
(** ** The recall-directed scheduler never raises *)

Section DatalogTotal.
Variable set_iter : list Literal -> list Literal.
Hypothesis set_iter_members : forall s x, In x (set_iter s) -> In x s.
Hypothesis set_iter_visits : forall s x, In x s -> In x (set_iter s).

Lemma datalog_loop_total (rc : list ((string * string) * Z)) :
  forall fuel seen pool acc,
  NoDup pool -> (List.length pool <= fuel)%nat ->
  exists res, datalog_loop set_iter fuel rc seen pool acc = Some res.
Proof.
  induction fuel as [|fuel IH]; intros seen pool acc Hnd Hlen;
    destruct pool as [|p pool]; cbn [datalog_loop].
  1,3: eexists; reflexivity.
  - cbn [Datatypes.length] in Hlen. lia.
  - set (ls := set_iter (p :: pool)).
    assert (Hp : In p ls) by (apply set_iter_visits; left; reflexivity).
    destruct (match find (fun l => issubset (arguments l) seen) ls with
              | Some l => Some l
              | None => hd_error (sort_by (fun a b => Z.ltb (tmp_score rc seen a)
                                                          (tmp_score rc seen b)) ls)
              end) as [l|] eqn:Esel.
    + assert (Hl : In l (p :: pool)).
      { apply set_iter_members. fold ls.
        destruct (find _ ls) as [x|] eqn:Ef.
        - injection Esel as <-. exact (proj1 (find_some _ _ Ef)).
        - destruct (sort_by _ ls) as [|y ys] eqn:Es; simpl in Esel; [discriminate|].
          injection Esel as <-. eapply Permutation_in; [apply sort_by_perm|].
          rewrite Es. left. reflexivity. }
      apply IH; [apply set_remove_nodup; exact Hnd|].
      assert (Hrm := Permutation_length (set_remove_perm l _ Hnd Hl)).
      cbn [Datatypes.length] in Hrm, Hlen. lia.
    + exfalso. destruct (find _ ls); [discriminate|].
      destruct (sort_by _ ls) as [|y ys] eqn:Es; [|discriminate].
      assert (Hs := sort_by_perm (fun a b => Z.ltb (tmp_score rc seen a)
                                                   (tmp_score rc seen b)) ls).
      rewrite Es in Hs. apply Permutation_nil in Hs. rewrite Hs in Hp. exact Hp.
Qed.

End DatalogTotal.

(** With the recall-directed policy ([settings.datalog]) [order_rule] never
    raises: it returns the head unchanged with the distinct body literals
    ([set(body)]) in some order, for any body and any set iteration
    order. *)
Theorem order_rule_datalog_total (set_iter : list Literal -> list Literal)
  (set_iter_members : forall s x, In x (set_iter s) -> In x s)
  (set_iter_visits : forall s x, In x s -> In x (set_iter s))
  (rule : Rule) (settings : Settings) :
  datalog settings = true ->
  exists ordered_body,
    order_rule set_iter rule (Some settings) = Ok (fst rule, ordered_body)
    /\ Permutation ordered_body (to_set (snd rule)).
Proof.
  intros Hd. unfold order_rule. rewrite Hd. destruct rule as [head body].
  unfold order_rule_datalog. simpl.
  destruct (datalog_loop_total set_iter set_iter_members set_iter_visits (recall settings)
              (List.length (to_set body)) (match head with Some h => arguments h | None => [] end)
              (to_set body) [] (NoDup_nodup _ _) (le_n _)) as [res Hres].
  rewrite Hres. exists res. split; [reflexivity|].
  exact (datalog_loop_perm set_iter set_iter_members _ _ _ _ _ _ (NoDup_nodup _ _) Hres).
Qed.

Lemma order_rule_datalog_total_witness :
  (forall s x, In x ((fun s : list Literal => s) s) -> In x s) /\
  (forall s x, In x s -> In x ((fun s : list Literal => s) s)) /\
  datalog (mkSettings true [] false false [] 2 2 3 4 []) = true /\
  exists ordered_body,
    order_rule (fun s => s) (None, [q_in_A; q_in_A; r_out_A])
      (Some (mkSettings true [] false false [] 2 2 3 4 [])) = Ok (None, ordered_body)
    /\ Permutation ordered_body (to_set [q_in_A; q_in_A; r_out_A]).
Proof.
  split; [exact (fun s x H => H)|]. split; [exact (fun s x H => H)|].
  split; [reflexivity|].
  exact (order_rule_datalog_total (fun s => s) (fun s x H => H) (fun s x H => H)
           (None, [q_in_A; q_in_A; r_out_A]) (mkSettings true [] false false [] 2 2 3 4 [])
           eq_refl).
Defined.

(* ------------------------------------------------------------------ *)
(** ** Recursive literals are placed last *)



Section RecursiveLast.
Variable set_iter : list Literal -> list Literal.
Hypothesis set_iter_members : forall s x, In x (set_iter s) -> In x s.
Hypothesis set_iter_visits : forall s x, In x s -> In x (set_iter s).
Variable h : Literal.



End RecursiveLast.



(* ------------------------------------------------------------------ *)
(** ** Stable sorting: kept order, sorted input, unique result *)

Lemma filter_none {A : Type} (P : A -> bool) (l : list A) :
  (forall z, In z l -> P z = false) -> filter P l = [].
Proof.
  induction l as [|a l IH]; simpl; intros H; [reflexivity|].
  rewrite (H a (or_introl eq_refl)). apply IH. intros z Hz. exact (H z (or_intror Hz)).
Qed.

Section StableFacts.
Variable A : Type.
Variable ltb : A -> A -> bool.
Hypothesis ltb_asym : forall x y, ltb x y = true -> ltb y x = false.
Hypothesis nlt_trans : forall x y z, ltb y x = false -> ltb z y = false -> ltb z x = false.

Lemma insert_by_last (x : A) :
  forall acc, Forall (fun y => ltb x y = false) acc -> insert_by ltb x acc = acc ++ [x].
Proof.
  induction acc as [|y r IH]; simpl; intros H; [reflexivity|].
  apply Forall_cons_iff in H as [Hy Hr]. rewrite Hy, (IH Hr). reflexivity.
Qed.

Lemma StronglySorted_app_last (acc l : list A) (x : A) :
  StronglySorted (fun a b => ltb b a = false) (acc ++ x :: l) ->
  Forall (fun y => ltb x y = false) acc.
Proof.
  induction acc as [|a acc IH]; simpl; intros H; [constructor|].
  apply StronglySorted_inv in H as [Hs Hf]. constructor; [|exact (IH Hs)].
  rewrite Forall_forall in Hf. apply Hf, in_or_app. right. left. reflexivity.
Qed.

(** Sorting an already sorted list leaves it unchanged. *)
Lemma sort_by_sorted_id (l : list A) :
  StronglySorted (fun a b => ltb b a = false) l -> sort_by ltb l = l.
Proof.
  unfold sort_by. change l with ([] ++ l) at 1 3. generalize (@nil A).
  induction l as [|x l IH]; simpl; intros acc H; [symmetry; apply app_nil_r|].
  rewrite (insert_by_last x acc (StronglySorted_app_last acc l x H)).
  replace (acc ++ x :: l) with ((acc ++ [x]) ++ l) by (rewrite <- app_assoc; reflexivity).
  apply IH. rewrite <- app_assoc. exact H.
Qed.

Lemma sort_by_idempotent (l : list A) : sort_by ltb (sort_by ltb l) = sort_by ltb l.
Proof. apply sort_by_sorted_id, sort_by_sorted; assumption. Qed.

Variable P : A -> bool.
(** [P] picks elements with one and the same key. *)
Hypothesis P_same_key : forall x y, P x = true -> P y = true -> ltb x y = false.

Lemma insert_by_filter (x : A) :
  forall acc, StronglySorted (fun a b => ltb b a = false) acc ->
  filter P (insert_by ltb x acc) = filter P acc ++ filter P [x].
Proof.
  induction acc as [|y r IH]; simpl; intros H; [destruct (P x); reflexivity|].
  apply StronglySorted_inv in H as [Hr Hy].
  destruct (ltb x y) eqn:Exy.
  - simpl. destruct (P x) eqn:Px; [|symmetry; apply app_nil_r].
    assert (Hnil : filter P (y :: r) = []).
    { apply filter_none. intros z [->|Hz].
      - destruct (P z) eqn:Pz; [|reflexivity].
        rewrite (P_same_key _ _ Px Pz) in Exy. discriminate.
      - rewrite Forall_forall in Hy.
        destruct (P z) eqn:Pz; [|reflexivity]. exfalso.
        pose proof (nlt_trans _ _ _ (Hy z Hz) (P_same_key _ _ Px Pz)). congruence. }
    simpl in Hnil. rewrite Hnil. reflexivity.
  - simpl. rewrite (IH Hr). destruct (P y); reflexivity.
Qed.

(** Elements with equal keys keep their input order. *)
Lemma sort_by_stable (l : list A) : filter P (sort_by ltb l) = filter P l.
Proof.
  unfold sort_by. change (filter P l) with (filter P [] ++ filter P l).
  assert (H : StronglySorted (fun a b => ltb b a = false) (@nil A)) by constructor.
  revert H. generalize (@nil A).
  induction l as [|x l IH]; simpl; intros acc H; [rewrite app_nil_r; reflexivity|].
  rewrite IH by (apply insert_by_sorted; assumption).
  rewrite insert_by_filter by exact H. rewrite <- app_assoc. simpl. destruct (P x); reflexivity.
Qed.

End StableFacts.

Lemma sorted_perm_unique {A : Type} (ltb : A -> A -> bool)
  (eq_dec : forall x y : A, {x = y} + {x <> y}) :
  forall l1 l2,
  (forall x y, In x l1 -> In y l1 -> x <> y -> ltb x y = true \/ ltb y x = true) ->
  StronglySorted (fun a b => ltb b a = false) l1 ->
  StronglySorted (fun a b => ltb b a = false) l2 ->
  Permutation l1 l2 -> l1 = l2.
Proof.
  induction l1 as [|a l1 IH]; intros l2 Htri H1 H2 Hp.
  - symmetry. apply Permutation_nil. exact Hp.
  - destruct l2 as [|b l2].
    { apply Permutation_sym, Permutation_nil in Hp. discriminate. }
    apply StronglySorted_inv in H1 as [H1 F1]. apply StronglySorted_inv in H2 as [H2 F2].
    destruct (eq_dec a b) as [<-|Hne].
    + f_equal. apply IH; [| exact H1 | exact H2 | exact (Permutation_cons_inv Hp)].
      intros x y Hx Hy. apply Htri; right; assumption.
    + exfalso.
      assert (Ha : In a l2).
      { destruct (Permutation_in a Hp (or_introl eq_refl)) as [->|Ha];
          [contradiction | exact Ha]. }
      assert (Hb : In b l1).
      { destruct (Permutation_in b (Permutation_sym Hp) (or_introl eq_refl)) as [->|Hb];
          [contradiction | exact Hb]. }
      rewrite Forall_forall in F1, F2.
      pose proof (F1 b Hb) as E1. pose proof (F2 a Ha) as E2.
      destruct (Htri a b (or_introl eq_refl) (or_intror Hb) Hne) as [E|E]; congruence.
Qed.

Lemma NoDup_map_inj {A B : Type} (f : A -> B) :
  forall l x y, NoDup (map f l) -> In x l -> In y l -> f x = f y -> x = y.
Proof.
  induction l as [|a l IH]; simpl; intros x y Hn Hx Hy Hf; [destruct Hx|].
  apply NoDup_cons_iff in Hn as [Ha Hn].
  destruct Hx as [<-|Hx], Hy as [<-|Hy].
  - reflexivity.
  - exfalso. apply Ha. rewrite Hf. apply in_map, Hy.
  - exfalso. apply Ha. rewrite <- Hf. apply in_map, Hx.
  - exact (IH x y Hn Hx Hy Hf).
Qed.

(* ------------------------------------------------------------------ *)
(** ** Python's [<] on the sort keys is a strict total order *)


Lemma strict_total_asym {X : Type} (lt : X -> X -> bool) :
  strict_total lt -> forall x y, lt x y = true -> lt y x = false.
Proof.
  intros [Hirr [Htr _]] x y H. destruct (lt y x) eqn:E; [|reflexivity].
  pose proof (Hirr x) as Hx. rewrite (Htr _ _ _ H E) in Hx. discriminate.
Qed.

Lemma strict_total_nlt_trans {X : Type} (lt : X -> X -> bool) :
  strict_total lt -> forall x y z, lt y x = false -> lt z y = false -> lt z x = false.
Proof.
  intros [Hirr [Htr Htri]] x y z H1 H2.
  destruct (lt z x) eqn:E; [|reflexivity].
  destruct (Htri x y) as [<-|[Hxy|Hyx]]; [congruence| |congruence].
  rewrite (Htr _ _ _ E Hxy) in H2. discriminate.
Qed.

Lemma nat_ltb_strict_total : strict_total Nat.ltb.
Proof.
  split; [|split].
  - intros x. apply Nat.ltb_irrefl.
  - intros x y z H1 H2. apply Nat.ltb_lt in H1, H2. apply Nat.ltb_lt. lia.
  - intros x y. destruct (Nat.lt_trichotomy x y) as [H|[H|H]].
    + right. left. apply Nat.ltb_lt, H.
    + left. exact H.
    + right. right. apply Nat.ltb_lt, H.
Qed.

Lemma string_compare_OT (s1 s2 : string) :
  String.compare s1 s2 = OrdersEx.String_as_OT.compare s1 s2.
Proof.
  revert s2. induction s1 as [|a s1 IH]; destruct s2 as [|b s2]; reflexivity.
Qed.

Lemma string_ltb_OT (s1 s2 : string) :
  String.ltb s1 s2 = true <-> OrdersEx.String_as_OT.lt s1 s2.
Proof.
  unfold String.ltb, OrdersEx.String_as_OT.lt. rewrite string_compare_OT.
  destruct (OrdersEx.String_as_OT.compare s1 s2); split; congruence.
Qed.

Lemma string_ltb_strict_total : strict_total String.ltb.
Proof.
  split; [|split].
  - intros x. destruct (String.ltb x x) eqn:E; [|reflexivity].
    apply string_ltb_OT in E. exfalso.
    exact (RelationClasses.StrictOrder_Irreflexive (StrictOrder := OrdersEx.String_as_OT.lt_strorder) x E).
  - intros x y z H1 H2. apply string_ltb_OT in H1, H2. apply string_ltb_OT.
    exact (RelationClasses.StrictOrder_Transitive (StrictOrder := OrdersEx.String_as_OT.lt_strorder)
             _ _ _ H1 H2).
  - intros x y. destruct (OrdersEx.String_as_OT.compare_spec x y) as [H|H|H].
    + left. exact H.
    + right. left. apply string_ltb_OT, H.
    + right. right. apply string_ltb_OT, H.
Qed.

Section Lexicographic.
Variables X Y : Type.
Variable ltx eqx : X -> X -> bool.
Variable lty : Y -> Y -> bool.
Hypothesis eqx_spec : forall a b, eqx a b = true <-> a = b.
Hypothesis ltx_total : strict_total ltx.
Hypothesis lty_total : strict_total lty.

Lemma eqx_refl (a : X) : eqx a a = true.
Proof. apply eqx_spec. reflexivity. Qed.

Lemma lex_step (b : bool) (a1 a2 : X) :
  ltx a1 a2 || (eqx a1 a2 && b) = true <->
  ltx a1 a2 = true \/ (a1 = a2 /\ b = true).
Proof.
  rewrite orb_true_iff, andb_true_iff, eqx_spec. reflexivity.
Qed.

Lemma tuple_ltb_strict_total : strict_total (tuple_ltb ltx eqx lty).
Proof.
  destruct ltx_total as [Ix [Tx Rx]], lty_total as [Iy [Ty Ry]].
  unfold tuple_ltb. split; [|split].
  - intros [a b]. simpl. rewrite Ix, eqx_refl, Iy. reflexivity.
  - intros [a1 b1] [a2 b2] [a3 b3]. simpl. rewrite !lex_step.
    intros [H1|[<- H1]] [H2|[<- H2]].
    + left. exact (Tx _ _ _ H1 H2).
    + left. exact H1.
    + left. exact H2.
    + right. split; [reflexivity | exact (Ty _ _ _ H1 H2)].
  - intros [a1 b1] [a2 b2]. simpl. rewrite !lex_step.
    destruct (Rx a1 a2) as [<-|[H|H]]; [|right; left; left; exact H|right; right; left; exact H].
    destruct (Ry b1 b2) as [<-|[H|H]]; [left; reflexivity| |].
    + right. left. right. split; [reflexivity | exact H].
    + right. right. right. split; [reflexivity | exact H].
Qed.

End Lexicographic.

Lemma list_ltb_strict_total {X : Type} (ltx eqx : X -> X -> bool) :
  (forall a b, eqx a b = true <-> a = b) -> strict_total ltx ->
  strict_total (list_ltb ltx eqx).
Proof.
  intros Heq Hx. pose proof Hx as [Ix [Tx Rx]]. split; [|split].
  - induction x as [|a x IH]; simpl; [reflexivity|].
    rewrite Ix, IH, andb_false_r. reflexivity.
  - induction x as [|a x IH]; destruct y as [|b y], z as [|c z]; simpl;
      try discriminate; try reflexivity.
    rewrite !(lex_step X ltx eqx Heq).
    intros [H1|[<- H1]] [H2|[<- H2]].
    + left. exact (Tx _ _ _ H1 H2).
    + left. exact H1.
    + left. exact H2.
    + right. split; [reflexivity | exact (IH _ _ H1 H2)].
  - induction x as [|a x IH]; destruct y as [|b y]; simpl; auto.
    rewrite !(lex_step X ltx eqx Heq).
    destruct (Rx a b) as [<-|[H|H]]; [|right; left; left; exact H|right; right; left; exact H].
    destruct (IH y) as [<-|[H|H]]; [left; reflexivity| |].
    + right. left. right. split; [reflexivity | exact H].
    + right. right. right. split; [reflexivity | exact H].
Qed.

Lemma key2_ltb_strict_total : strict_total key2_ltb.
Proof.
  unfold key2_ltb. apply tuple_ltb_strict_total.
  - exact Nat.eqb_eq.
  - exact nat_ltb_strict_total.
  - apply tuple_ltb_strict_total.
    + exact String.eqb_eq.
    + exact string_ltb_strict_total.
    + apply list_ltb_strict_total; [exact String.eqb_eq | exact string_ltb_strict_total].
Qed.

Lemma order_rule2_ltb_asym (x y : Literal) :
  order_rule2_ltb x y = true -> order_rule2_ltb y x = false.
Proof. unfold order_rule2_ltb. apply strict_total_asym, key2_ltb_strict_total. Qed.

Lemma order_rule2_nlt_trans (x y z : Literal) :
  order_rule2_ltb y x = false -> order_rule2_ltb z y = false -> order_rule2_ltb z x = false.
Proof. unfold order_rule2_ltb. apply strict_total_nlt_trans, key2_ltb_strict_total. Qed.

Lemma list_sum_perm (l1 l2 : list nat) : Permutation l1 l2 -> list_sum l1 = list_sum l2.
Proof. induction 1; simpl; lia. Qed.

(* ------------------------------------------------------------------ *)
(** ** [order_prog] and [calc_prog_size] *)

(** [order_prog] only rearranges the rules of a program: the result is a
    permutation of the input, so the program size [calc_prog_size] is
    unchanged. *)
Theorem order_prog_rearranges (prog : list Rule) :
  Permutation (order_prog prog) prog /\
  calc_prog_size (order_prog prog) = calc_prog_size prog.
Proof.
  pose proof (sort_by_perm prog_key_ltb prog) as Hp. split; [exact Hp|].
  unfold calc_prog_size. apply list_sum_perm, Permutation_map, Hp.
Qed.

(** [order_prog] is stable: rules with the same recursion flag and the same
    body length appear in the output in the same relative order as in the
    input. *)
Theorem order_prog_stable (prog : list Rule) (r : Rule) :
  filter (fun r' => Bool.eqb (rule_is_recursive r') (rule_is_recursive r)
                    && Nat.eqb (List.length (snd r')) (List.length (snd r)))
    (order_prog prog)
  = filter (fun r' => Bool.eqb (rule_is_recursive r') (rule_is_recursive r)
                      && Nat.eqb (List.length (snd r')) (List.length (snd r)))
      prog.
Proof.
  apply (sort_by_stable Rule prog_key_ltb prog_key_ltb_asym prog_key_nlt_trans).
  intros x y Hx Hy. apply andb_true_iff in Hx as [Bx Nx], Hy as [By Ny].
  apply Bool.eqb_prop in Bx, By. apply Nat.eqb_eq in Nx, Ny.
  unfold prog_key_ltb, tuple_ltb, prog_key. simpl.
  rewrite Bx, By, Nx, Ny, Nat.ltb_irrefl.
  destruct (rule_is_recursive r); reflexivity.
Qed.

(** Ordering an ordered program changes nothing. *)
Theorem order_prog_idempotent (prog : list Rule) :
  order_prog (order_prog prog) = order_prog prog.
Proof.
  apply (sort_by_idempotent Rule prog_key_ltb prog_key_ltb_asym prog_key_nlt_trans).
Qed.

(* ------------------------------------------------------------------ *)
(** ** [order_rule2] *)

(** [order_rule2] keeps the head and returns a permutation of the body. *)
Theorem order_rule2_head_perm (rule : Rule) :
  fst (order_rule2 rule) = fst rule /\ Permutation (snd (order_rule2 rule)) (snd rule).
Proof.
  destruct rule as [head body]. simpl. split; [reflexivity | apply sort_by_perm].
Qed.

(** In the body returned by [order_rule2], a literal never has more
    arguments than a literal after it, and among literals with as many
    arguments the predicate names do not decrease. *)
Theorem order_rule2_sorted (rule : Rule) (l1 : list Literal) (a : Literal)
  (l2 : list Literal) (b : Literal) (l3 : list Literal) :
  snd (order_rule2 rule) = l1 ++ a :: l2 ++ b :: l3 ->
  List.length (arguments a) <= List.length (arguments b) /\
  (List.length (arguments a) = List.length (arguments b) ->
   String.leb (predicate a) (predicate b) = true).
Proof.
  destruct rule as [head body]. simpl. intros H.
  pose proof (sort_by_sorted Literal order_rule2_ltb order_rule2_ltb_asym
                order_rule2_nlt_trans body) as Hs.
  rewrite H in Hs. apply StronglySorted_pair in Hs.
  unfold order_rule2_ltb, key2_ltb, tuple_ltb, order_rule2_key in Hs. simpl in Hs.
  apply orb_false_iff in Hs as [Hl Hr]. apply Nat.ltb_ge in Hl. split; [exact Hl|].
  intros Heq. rewrite Heq, Nat.eqb_refl in Hr. simpl in Hr.
  apply orb_false_iff in Hr as [Hp _].
  unfold String.leb. unfold String.ltb in Hp. rewrite String.compare_antisym.
  destruct (String.compare (predicate b) (predicate a)); simpl; congruence.
Qed.

Lemma order_rule2_sorted_witness :
  snd (order_rule2 (Some p_in_A, [p_in_A_out_B; r_out_A; q_in_A]))
    = [] ++ q_in_A :: [r_out_A] ++ p_in_A_out_B :: [] /\
  List.length (arguments q_in_A) <= List.length (arguments p_in_A_out_B) /\
  (List.length (arguments q_in_A) = List.length (arguments p_in_A_out_B) ->
   String.leb (predicate q_in_A) (predicate p_in_A_out_B) = true).
Proof.
  split; [reflexivity|].
  apply (order_rule2_sorted (Some p_in_A, [p_in_A_out_B; r_out_A; q_in_A])
           [] q_in_A [r_out_A] p_in_A_out_B []).
  reflexivity.
Defined.

(** When no two body literals have the same predicate and arguments,
    [order_rule2] gives the same rule for every ordering of the body. *)
Theorem order_rule2_canonical (head : option Literal) (body1 body2 : list Literal) :
  NoDup (map sig_of body1) -> Permutation body1 body2 ->
  order_rule2 (head, body1) = order_rule2 (head, body2).
Proof.
  intros Hn Hp. simpl. f_equal.
  apply (sorted_perm_unique order_rule2_ltb Literal_eq_dec).
  - intros x y Hx Hy Hne.
    apply (Permutation_in _ (sort_by_perm _ _)) in Hx, Hy.
    destruct key2_ltb_strict_total as [_ [_ Htri]].
    destruct (Htri (order_rule2_key x) (order_rule2_key y)) as [E|E]; [|exact E].
    exfalso. apply Hne. apply (NoDup_map_inj sig_of body1); try assumption.
    unfold order_rule2_key in E. unfold sig_of. congruence.
  - apply sort_by_sorted; [exact order_rule2_ltb_asym | exact order_rule2_nlt_trans].
  - apply sort_by_sorted; [exact order_rule2_ltb_asym | exact order_rule2_nlt_trans].
  - rewrite (sort_by_perm _ body1), (sort_by_perm _ body2). exact Hp.
Qed.

Lemma order_rule2_canonical_witness :
  NoDup (map sig_of [q_in_A; r_out_A; p_in_A_out_B]) /\
  Permutation [q_in_A; r_out_A; p_in_A_out_B] [p_in_A_out_B; r_out_A; q_in_A] /\
  order_rule2 (Some p_in_A, [q_in_A; r_out_A; p_in_A_out_B])
    = order_rule2 (Some p_in_A, [p_in_A_out_B; r_out_A; q_in_A]).
Proof.
  assert (Hn : NoDup (map sig_of [q_in_A; r_out_A; p_in_A_out_B])).
  { simpl. repeat constructor; simpl; intuition discriminate. }
  assert (Hp : Permutation [q_in_A; r_out_A; p_in_A_out_B] [p_in_A_out_B; r_out_A; q_in_A]).
  { apply (Permutation_trans (l' := [r_out_A; q_in_A; p_in_A_out_B])); [apply perm_swap|].
    apply (Permutation_trans (l' := [r_out_A; p_in_A_out_B; q_in_A])); [apply perm_skip, perm_swap|].
    apply perm_swap. }
  split; [exact Hn|]. split; [exact Hp|].
  exact (order_rule2_canonical (Some p_in_A) _ _ Hn Hp).
Defined.

(** Ordering a rule ordered by [order_rule2] changes nothing. *)
Theorem order_rule2_idempotent (rule : Rule) :
  order_rule2 (order_rule2 rule) = order_rule2 rule.
Proof.
  destruct rule as [head body]. simpl. f_equal.
  apply (sort_by_idempotent Literal order_rule2_ltb order_rule2_ltb_asym
           order_rule2_nlt_trans).
Qed.

(* ------------------------------------------------------------------ *)
(** ** [reduce_prog]: one rule per key, the last one *)

Lemma key_eqb_spec (k1 k2 : Key) :
  key_eqb k1 k2 = true <->
  fst k1 = fst k2 /\ incl (snd k1) (snd k2) /\ incl (snd k2) (snd k1).
Proof.
  unfold key_eqb. rewrite !andb_true_iff, sig_eqb_true, !sig_subset_incl.
  split; [intros [[? ?] ?]; auto | intros [? [? ?]]; auto].
Qed.

Lemma key_eqb_refl (k : Key) : key_eqb k k = true.
Proof. apply key_eqb_spec. split; [reflexivity | split; apply incl_refl]. Qed.

Lemma key_eqb_sym (k1 k2 : Key) : key_eqb k1 k2 = key_eqb k2 k1.
Proof.
  destruct (key_eqb k2 k1) eqn:E.
  - apply key_eqb_spec in E as [? [? ?]]. apply key_eqb_spec. auto.
  - destruct (key_eqb k1 k2) eqn:E'; [|reflexivity].
    apply key_eqb_spec in E' as [? [? ?]].
    assert (key_eqb k2 k1 = true) by (apply key_eqb_spec; auto). congruence.
Qed.

Lemma key_eqb_trans (k1 k2 k3 : Key) :
  key_eqb k1 k2 = true -> key_eqb k2 k3 = true -> key_eqb k1 k3 = true.
Proof.
  rewrite !key_eqb_spec. intros [E1 [I1 J1]] [E2 [I2 J2]].
  split; [congruence | split; eapply incl_tran; eassumption].
Qed.

Lemma key_eqb_false_l (k1 k2 k3 : Key) :
  key_eqb k1 k2 = true -> key_eqb k2 k3 = false -> key_eqb k1 k3 = false.
Proof.
  intros H1 H2. destruct (key_eqb k1 k3) eqn:E; [|reflexivity].
  rewrite key_eqb_sym in H1. rewrite (key_eqb_trans _ _ _ H1 E) in H2. discriminate.
Qed.


Lemma dict_set_fst (k : Key) (v : Rule) :
  forall d k' v', In (k', v') (dict_set k v d) -> (exists v0, In (k', v0) d) \/ k' = k.
Proof.
  induction d as [|[k1 v1] d IH]; simpl; intros k' v' H.
  - destruct H as [H|[]]. injection H as <- _. right. reflexivity.
  - destruct (key_eqb k k1); destruct H as [H|H].
    + injection H as <- _. left. exists v1. left. reflexivity.
    + left. exists v'. right. exact H.
    + injection H as <- _. left. exists v1. left. reflexivity.
    + destruct (IH _ _ H) as [[v0 Hv]|E]; [left; exists v0; right; exact Hv | right; exact E].
Qed.

Lemma dict_set_distinct (k : Key) (v : Rule) :
  forall d, dict_distinct d -> dict_distinct (dict_set k v d).
Proof.
  unfold dict_distinct.
  induction d as [|[k1 v1] d IH]; simpl; intros H.
  - repeat constructor.
  - inversion H as [|a l Hf Hd]; subst.
    destruct (key_eqb k k1) eqn:E.
    + constructor; [|exact Hd]. rewrite Forall_forall in Hf |- *.
      intros [k' v'] Hin. exact (Hf (k', v') Hin).
    + constructor; [|exact (IH Hd)]. rewrite Forall_forall in Hf |- *.
      intros [k' v'] Hin. simpl.
      destruct (dict_set_fst k v d k' v' Hin) as [[v0 Hv]| ->].
      * exact (Hf (k', v0) Hv).
      * rewrite key_eqb_sym. exact E.
Qed.

Lemma dict_set_in (k : Key) (v : Rule) :
  forall d, dict_distinct d ->
  forall k' v', In (k', v') (dict_set k v d) ->
  (key_eqb k k' = true /\ v' = v) \/ (In (k', v') d /\ key_eqb k k' = false).
Proof.
  unfold dict_distinct.
  induction d as [|[k1 v1] d IH]; simpl; intros Hd k' v' H.
  - destruct H as [H|[]]. injection H as <- <-. left. split; [apply key_eqb_refl | reflexivity].
  - inversion Hd as [|a l Hf Hd']; subst. rewrite Forall_forall in Hf.
    destruct (key_eqb k k1) eqn:E; destruct H as [H|H].
    + injection H as <- <-. left. split; [exact E | reflexivity].
    + right. split; [right; exact H|].
      exact (key_eqb_false_l _ _ _ E (Hf (k', v') H)).
    + injection H as <- <-. right. split; [left; reflexivity | exact E].
    + destruct (IH Hd' _ _ H) as [L|[Hin Hk]]; [left; exact L|].
      right. split; [right; exact Hin | exact Hk].
Qed.

Lemma dict_set_new (k : Key) (v : Rule) :
  forall d, exists k', In (k', v) (dict_set k v d) /\ key_eqb k k' = true.
Proof.
  induction d as [|[k1 v1] d IH]; simpl.
  - exists k. split; [left; reflexivity | apply key_eqb_refl].
  - destruct (key_eqb k k1) eqn:E.
    + exists k1. split; [left; reflexivity | exact E].
    + destruct IH as [k' [Hin Hk]]. exists k'. split; [right; exact Hin | exact Hk].
Qed.

Lemma dict_set_keep (k : Key) (v : Rule) :
  forall d k' v', In (k', v') d -> key_eqb k k' = false -> In (k', v') (dict_set k v d).
Proof.
  induction d as [|[k1 v1] d IH]; simpl; intros k' v' H Hk; [destruct H|].
  destruct (key_eqb k k1) eqn:E; destruct H as [H|H].
  - injection H as <- <-. congruence.
  - right. exact H.
  - left. exact H.
  - right. exact (IH _ _ H Hk).
Qed.

Lemma dict_set_length (k : Key) (v : Rule) :
  forall d, List.length (dict_set k v d) <= S (List.length d).
Proof.
  induction d as [|[k1 v1] d IH]; simpl; [lia|].
  destruct (key_eqb k k1); simpl; lia.
Qed.


Lemma reduce_inv_step (seen : list Rule) (d : list (Key * Rule)) (r : Rule) :
  reduce_inv seen d ->
  reduce_inv (seen ++ [r]) (dict_set (reduce_key r) r d).
Proof.
  intros [Hd [Hk [Hl [Hr Hn]]]]. split; [|split; [|split; [|split]]].
  - apply dict_set_distinct, Hd.
  - intros k v Hin. destruct (dict_set_in _ _ d Hd k v Hin) as [[E ->]|[Hin' _]].
    + rewrite key_eqb_sym. exact E.
    + exact (Hk k v Hin').
  - intros k v Hin. destruct (dict_set_in _ _ d Hd k v Hin) as [[E ->]|[Hin' E]].
    + exists seen, []. split; [reflexivity|]. intros x [].
    + destruct (Hl k v Hin') as [pre [post [-> Hp]]].
      exists pre, (post ++ [r]). split; [rewrite <- app_assoc; reflexivity|].
      intros x Hx. apply in_app_or in Hx as [Hx|[<-|[]]]; [exact (Hp x Hx) | exact E].
  - intros r0 Hr0. apply in_app_or in Hr0 as [Hr0|[<-|[]]].
    + destruct (Hr r0 Hr0) as [k [v [Hin Hk0]]].
      destruct (key_eqb (reduce_key r) k) eqn:E.
      * destruct (dict_set_new (reduce_key r) r d) as [k' [Hin' Hk']].
        exists k', r. split; [exact Hin'|].
        rewrite key_eqb_sym in E.
        exact (key_eqb_trans _ _ _ (key_eqb_trans _ _ _ Hk0 E) Hk').
      * exists k, v. split; [exact (dict_set_keep _ _ d k v Hin E) | exact Hk0].
    + destruct (dict_set_new (reduce_key r) r d) as [k' [Hin' Hk']].
      exists k', r. split; [exact Hin' | exact Hk'].
  - rewrite length_app. simpl. pose proof (dict_set_length (reduce_key r) r d). lia.
Qed.

Lemma reduce_loop_inv :
  forall prog seen d out,
  reduce_inv seen d -> reduce_loop prog d = Ok out -> reduce_inv (seen ++ prog) out.
Proof.
  induction prog as [|[[h|] body] prog IH]; simpl; intros seen d out Hi H.
  - injection H as <-. rewrite app_nil_r. exact Hi.
  - pose proof (IH _ _ _ (reduce_inv_step seen d (Some h, body) Hi) H) as G.
    rewrite <- app_assoc in G. exact G.
  - discriminate.
Qed.

Lemma reduce_inv_nil : reduce_inv [] [].
Proof.
  split; [constructor|]. split; [intros k v []|]. split; [intros k v []|].
  split; [intros r []|]. simpl. lia.
Qed.

Lemma reduce_prog_inv (prog out : list Rule) :
  reduce_prog prog = Ok out ->
  exists d, out = map snd d /\ reduce_inv prog d.
Proof.
  unfold reduce_prog. destruct (reduce_loop prog []) as [d|e] eqn:E; [|discriminate].
  intros H. injection H as <-. exists d. split; [reflexivity|].
  exact (reduce_loop_inv prog [] [] d reduce_inv_nil E).
Qed.

(** [reduce_prog] succeeds exactly when every rule of the program has a
    head; otherwise it raises. *)
Theorem reduce_prog_ok_iff (prog : list Rule) :
  (exists out, reduce_prog prog = Ok out) <-> Forall (fun r => fst r <> None) prog.
Proof.
  unfold reduce_prog.
  assert (G : forall d, (exists out, reduce_loop prog d = Ok out) <->
                        Forall (fun r => fst r <> None) prog).
  { induction prog as [|[[h|] body] prog IH]; simpl; intros d.
    - split; [constructor | intros _; exists d; reflexivity].
    - rewrite IH, Forall_cons_iff. simpl. split; [intros H; split; [discriminate | exact H]|].
      intros [_ H]. exact H.
    - split; [intros [out H]; discriminate|].
      intros H. inversion H as [|x l Hx _]; subst. simpl in Hx. congruence. }
  rewrite <- (G []). destruct (reduce_loop prog []); split.
  - intros _. eexists. reflexivity.
  - intros _. eexists. reflexivity.
  - intros [out H]. discriminate.
  - intros [out H]. discriminate.
Qed.

(** The rules [reduce_prog] returns are rules of the input, no more than
    the input has, and no two of them have equal keys (the same head
    predicate and arguments, and the same set of body predicates and
    arguments). *)
Theorem reduce_prog_distinct (prog out : list Rule) :
  reduce_prog prog = Ok out ->
  incl out prog /\ List.length out <= List.length prog /\
  ForallOrdPairs (fun r1 r2 => key_eqb (reduce_key r1) (reduce_key r2) = false) out.
Proof.
  intros H. destruct (reduce_prog_inv prog out H) as [d [-> [Hd [Hk [Hl [_ Hn]]]]]].
  split; [|split].
  - intros r Hr. apply in_map_iff in Hr as [[k v] [<- Hin]].
    destruct (Hl k v Hin) as [pre [post [-> _]]]. apply in_or_app. right. left. reflexivity.
  - rewrite length_map. exact Hn.
  - unfold dict_distinct in Hd.
    assert (Hkd : forall e, In e d -> key_eqb (fst e) (reduce_key (snd e)) = true).
    { intros [k v] Hin. exact (Hk k v Hin). }
    clear H Hk Hl Hn. revert Hkd.
    induction Hd as [|e d Hf Hd IH]; intros Hkd; simpl; constructor.
    all: destruct e as [k v].
    + rewrite Forall_forall in Hf |- *. intros r Hr.
      apply in_map_iff in Hr as [[k' v'] [<- Hin]]. simpl.
      pose proof (Hf (k', v') Hin) as E. simpl in E.
      pose proof (Hkd (k, v) (or_introl eq_refl)) as E1. simpl in E1.
      pose proof (Hkd (k', v') (or_intror Hin)) as E2. simpl in E2.
      rewrite key_eqb_sym in E1.
      apply (key_eqb_false_l _ _ _ E1). rewrite key_eqb_sym.
      rewrite key_eqb_sym in E2. rewrite key_eqb_sym in E.
      exact (key_eqb_false_l _ _ _ E2 E).
    + apply IH. intros e He. apply Hkd. right. exact He.
Qed.

(** For every rule of the input, [reduce_prog] returns a rule with an equal
    key, and it is the last rule of the input with that key. *)
Theorem reduce_prog_keeps_last (prog out : list Rule) :
  reduce_prog prog = Ok out ->
  forall r, In r prog ->
  exists r', In r' out /\ key_eqb (reduce_key r) (reduce_key r') = true /\
  exists pre post, prog = pre ++ r' :: post /\
  forall x, In x post -> key_eqb (reduce_key x) (reduce_key r') = false.
Proof.
  intros H r Hr. destruct (reduce_prog_inv prog out H) as [d [-> [_ [Hk [Hl [Hc _]]]]]].
  destruct (Hc r Hr) as [k [v [Hin E]]]. exists v. split; [apply in_map_iff; exists (k, v); auto|].
  pose proof (Hk k v Hin) as Ekv. split; [exact (key_eqb_trans _ _ _ E Ekv)|].
  destruct (Hl k v Hin) as [pre [post [Hs Hp]]]. exists pre, post. split; [exact Hs|].
  intros x Hx. rewrite key_eqb_sym in Ekv.
  rewrite key_eqb_sym. apply (key_eqb_false_l _ _ _ Ekv). rewrite key_eqb_sym. exact (Hp x Hx).
Qed.

Lemma reduce_prog_distinct_witness :
  reduce_prog [(Some p_in_A_out_B, [q_in_A; r_in_B]); (Some p_in_A, [q_in_A]);
               (Some p_in_A_out_B, [r_in_B; q_in_A])]
    = Ok [(Some p_in_A_out_B, [r_in_B; q_in_A]); (Some p_in_A, [q_in_A])] /\
  incl [(Some p_in_A_out_B, [r_in_B; q_in_A]); (Some p_in_A, [q_in_A])]
       [(Some p_in_A_out_B, [q_in_A; r_in_B]); (Some p_in_A, [q_in_A]);
        (Some p_in_A_out_B, [r_in_B; q_in_A])] /\
  List.length [(Some p_in_A_out_B, [r_in_B; q_in_A]); (Some p_in_A, [q_in_A])] <= 3 /\
  ForallOrdPairs (fun r1 r2 => key_eqb (reduce_key r1) (reduce_key r2) = false)
    [(Some p_in_A_out_B, [r_in_B; q_in_A]); (Some p_in_A, [q_in_A])].
Proof.
  split; [reflexivity|].
  apply (reduce_prog_distinct
           [(Some p_in_A_out_B, [q_in_A; r_in_B]); (Some p_in_A, [q_in_A]);
            (Some p_in_A_out_B, [r_in_B; q_in_A])]).
  reflexivity.
Defined.

Lemma reduce_prog_keeps_last_witness :
  reduce_prog [(Some p_in_A_out_B, [q_in_A; r_in_B]); (Some p_in_A, [q_in_A]);
               (Some p_in_A_out_B, [r_in_B; q_in_A])]
    = Ok [(Some p_in_A_out_B, [r_in_B; q_in_A]); (Some p_in_A, [q_in_A])] /\
  exists r', In r' [(Some p_in_A_out_B, [r_in_B; q_in_A]); (Some p_in_A, [q_in_A])] /\
  key_eqb (reduce_key (Some p_in_A_out_B, [q_in_A; r_in_B])) (reduce_key r') = true /\
  exists pre post,
  [(Some p_in_A_out_B, [q_in_A; r_in_B]); (Some p_in_A, [q_in_A]);
   (Some p_in_A_out_B, [r_in_B; q_in_A])] = pre ++ r' :: post /\
  forall x, In x post -> key_eqb (reduce_key x) (reduce_key r') = false.
Proof.
  split; [reflexivity|].
  apply (reduce_prog_keeps_last
           [(Some p_in_A_out_B, [q_in_A; r_in_B]); (Some p_in_A, [q_in_A]);
            (Some p_in_A_out_B, [r_in_B; q_in_A])]).
  - reflexivity.
  - left. reflexivity.
Defined.

(* ------------------------------------------------------------------ *)
(** ** Subsumption is a preorder *)

Lemma rule_subsumes_refl (r : SRule) : rule_subsumes r r = true.
Proof.
  destruct r as [[h|] b]; simpl; apply sig_subset_incl, incl_refl.
Qed.

Lemma rule_subsumes_trans (r1 r2 r3 : SRule) :
  rule_subsumes r1 r2 = true -> rule_subsumes r2 r3 = true ->
  rule_subsumes r1 r3 = true.
Proof.
  destruct r1 as [h1 b1], r2 as [h2 b2], r3 as [h3 b3]. simpl.
  destruct h1, h2, h3; try discriminate; rewrite !sig_subset_incl; apply incl_tran.
Qed.

(** Every rule subsumes itself, and subsumption between rules is
    transitive. *)
Theorem rule_subsumes_preorder :
  (forall r, rule_subsumes r r = true) /\
  (forall r1 r2 r3, rule_subsumes r1 r2 = true -> rule_subsumes r2 r3 = true ->
   rule_subsumes r1 r3 = true).
Proof.
  split; [exact rule_subsumes_refl | exact rule_subsumes_trans].
Qed.

(** Every program subsumes itself, and subsumption between programs is
    transitive. *)
Theorem theory_subsumes_preorder :
  (forall p, theory_subsumes p p = true) /\
  (forall p1 p2 p3, theory_subsumes p1 p2 = true -> theory_subsumes p2 p3 = true ->
   theory_subsumes p1 p3 = true).
Proof.
  unfold theory_subsumes. split.
  - intros p. apply forallb_forall. intros r Hr. apply existsb_exists.
    exists r. split; [exact Hr | apply rule_subsumes_refl].
  - intros p1 p2 p3 H12 H23. rewrite forallb_forall in H12, H23 |- *.
    intros r3 Hr3. pose proof (H23 r3 Hr3) as E23.
    apply existsb_exists in E23 as [r2 [Hr2 S23]].
    pose proof (H12 r2 Hr2) as E12. apply existsb_exists in E12 as [r1 [Hr1 S12]].
    apply existsb_exists. exists r1. split; [exact Hr1 | exact (rule_subsumes_trans _ _ _ S12 S23)].
Qed.

(* ------------------------------------------------------------------ *)
(** ** [bias_order] in expanded mode *)

Lemma fold_result_inv_in {A B : Type} (P : B -> Prop) (f : B -> A -> result B) :
  forall l,
  (forall b x b', In x l -> P b -> f b x = Ok b' -> P b') ->
  forall b b', P b -> fold_result f l b = Ok b' -> P b'.
Proof.
  induction l as [|x l IH]; simpl; intros Hf b b' Hb H.
  - injection H as <-. exact Hb.
  - destruct (f b x) as [b''|e] eqn:E; [|discriminate].
    refine (IH _ _ _ (Hf _ _ _ (or_introl eq_refl) Hb E) H).
    intros c y c' Hy. exact (Hf c y c' (or_intror Hy)).
Qed.

Lemma fold_result_ok {A B : Type} (f : B -> A -> result B) :
  forall l, (forall b x, In x l -> exists b', f b x = Ok b') ->
  forall b, exists b', fold_result f l b = Ok b'.
Proof.
  induction l as [|x l IH]; simpl; intros Hf b; [exists b; reflexivity|].
  destruct (Hf b x (or_introl eq_refl)) as [b'' E]. rewrite E.
  apply IH. intros c y Hy. exact (Hf c y (or_intror Hy)).
Qed.

Lemma vars_loop_entries (predicates arity size_rules size_literals : Z) :
  forall vs ret ret',
  vars_loop predicates arity size_rules size_literals vs ret = Ok ret' ->
  forall e, In e ret' -> In e ret \/
  exists v hs, e = (size_literals, v, size_rules, hs) /\ In v vs /\
    (v <= size_literals * arity - 1)%Z /\ hs <> 0%Z /\
    ((size_rules >? 1)%Z && (size_literals <? 5)%Z) = false.
Proof.
  induction vs as [|x vs IH]; simpl; intros ret ret' H e He.
  - injection H as <-. left. exact He.
  - destruct (x >? size_literals * arity - 1)%Z eqn:Eb.
    { injection H as <-. left. exact He. }
    destruct (hspace_of predicates x arity size_literals) as [hs|err]; [|discriminate].
    destruct (hs =? 0)%Z eqn:E0.
    { destruct (IH _ _ H e He) as [L|[v [h [Ee [Hv R]]]]]; [left; exact L|].
      right. exists v, h. split; [exact Ee | split; [right; exact Hv | exact R]]. }
    destruct ((size_rules >? 1)%Z && (size_literals <? 5)%Z) eqn:Es.
    { destruct (IH _ _ H e He) as [L|[v [h [Ee [Hv R]]]]]; [left; exact L|].
      right. exists v, h. split; [exact Ee | split; [right; exact Hv | exact R]]. }
    destruct (IH _ _ H e He) as [L|[v [h [Ee [Hv R]]]]].
    + apply in_app_or in L as [L|[L|[]]]; [left; exact L|].
      right. exists x, hs. split; [symmetry; exact L|]. split; [left; reflexivity|].
      rewrite Z.gtb_ltb in Eb. apply Z.ltb_ge in Eb. apply Z.eqb_neq in E0. auto.
    + right. exists v, h. split; [exact Ee | split; [right; exact Hv | exact R]].
Qed.

(** In expanded mode (no bias, or order by space) [bias_order] stores the
    returned list as the settings' [search_order], and every entry
    [(size_literals, size_vars, size_rules, hspace)] stays within the loop
    bounds: [size_rules] between its minimum (1 without bias, else
    [max_rules]) and [max_rules]; [size_literals] between 1 and
    [(1 + max_body) * size_rules]; [size_vars] between its minimum (1
    without bias, else [max_vars]) and [max_vars], and below
    [size_literals * max_arity]; [hspace] present and non-zero; and an
    entry with more than one rule has at least 5 literals. *)
Theorem bias_order_expanded_entries (settings : Settings) (max_size : Z)
  (settings' : Settings) (order : list Entry) :
  no_bias settings || order_space settings = true ->
  bias_order settings max_size = Ok (settings', order) ->
  settings' = set_search_order settings order /\
  forall l v r h, In (l, v, r, h) order ->
  ((if no_bias settings then 1 else max_rules settings) <= r <= max_rules settings)%Z /\
  (1 <= l <= (1 + max_body settings) * r)%Z /\
  ((if no_bias settings then 1 else max_vars settings) <= v <= max_vars settings)%Z /\
  (v <= l * max_arity settings - 1)%Z /\
  (exists hs, h = Some hs /\ hs <> 0%Z) /\
  (1 < r -> 5 <= l)%Z.
Proof.
  intros Hm H. unfold bias_order in H. rewrite Hm in H. cbn [negb] in H.
  match type of H with
  | match ?sw with Ok _ => _ | Raise _ => _ end = _ =>
      destruct sw as [ret|e] eqn:Es; [|discriminate]
  end.
  injection H as <- <-. split; [reflexivity|].
  set (minr := if no_bias settings then 1%Z else max_rules settings) in *.
  set (minv := if no_bias settings then 1%Z else max_vars settings) in *.
  set (P := fun ret : list XEntry => forall l v r hs, In (l, v, r, hs) ret ->
    (minr <= r <= max_rules settings)%Z /\
    (1 <= l <= (1 + max_body settings) * r)%Z /\
    (minv <= v <= max_vars settings)%Z /\
    (v <= l * max_arity settings - 1)%Z /\ hs <> 0%Z /\ (1 < r -> 5 <= l)%Z).
  assert (HP : P ret).
  { refine (fold_result_inv_in P _ _ _ _ _ _ Es); [|intros l v r hs []].
    intros b sr b' Hsr Hb Hf. apply zrange_In in Hsr.
    refine (fold_result_inv_in P _ _ _ _ _ Hb Hf).
    intros c sl c' Hsl Hc Hv. apply zrange_In in Hsl.
    intros l v r hs Hin.
    destruct (vars_loop_entries _ _ _ _ _ _ _ Hv _ Hin) as [L|[x [h [Ee [Hx [Hb' [H0 Hs]]]]]]].
    - exact (Hc _ _ _ _ L).
    - injection Ee as -> -> -> ->. apply zrange_In in Hx.
      apply andb_false_iff in Hs.
      destruct Hs as [Hs|Hs]; [rewrite Z.gtb_ltb in Hs; apply Z.ltb_ge in Hs | apply Z.ltb_ge in Hs];
        repeat split; try lia; try exact H0. }
  intros l v r h Hin. apply in_map_iff in Hin as [[[[l' v'] r'] h'] [Ee Ht]].
  simpl in Ee. injection Ee as -> -> -> <-.
  assert (Ht' : In (l, v, r, h') ret).
  { destruct (order_space settings); [|exact Ht].
    exact (Permutation_in _ (sort_by_perm xentry_ltb ret) Ht). }
  destruct (HP _ _ _ _ Ht') as [A1 [A2 [A3 [A4 [A5 A6]]]]].
  repeat split; try lia. exists h'. split; [reflexivity | exact A5].
Qed.

(** [bias_order] never raises when [max_arity] and [max_vars] are
    non-negative. *)
Theorem bias_order_no_raise (settings : Settings) (max_size : Z) :
  (0 <= max_arity settings)%Z -> (0 <= max_vars settings)%Z ->
  exists res, bias_order settings max_size = Ok res.
Proof.
  intros Ha Hv. unfold bias_order.
  destruct (negb (no_bias settings || order_space settings)); [eexists; reflexivity|].
  match goal with
  | |- exists res, match ?sw with Ok _ => _ | Raise _ => _ end = _ =>
      assert (Hsw : exists ret, sw = Ok ret)
  end.
  { apply fold_result_ok. intros b sr Hsr. apply fold_result_ok. intros c sl Hsl.
    apply zrange_In in Hsl.
    set (vs := zrange _ _).
    assert (Hvs : forall v, In v vs -> (0 <= v)%Z).
    { intros v Hin. apply zrange_In in Hin. destruct (no_bias settings); lia. }
    clearbody vs. revert c. induction vs as [|x vs IH]; simpl; intros c.
    - exists c. reflexivity.
    - destruct (x >? sl * max_arity settings - 1)%Z; [exists c; reflexivity|].
      unfold hspace_of, math_comb.
      replace (max_arity settings <? 0)%Z with false by (symmetry; apply Z.ltb_ge; lia).
      assert (Hx : (0 <= x)%Z) by (apply Hvs; left; reflexivity).
      assert (Hn : (0 <= (Z.of_nat (List.length (body_preds settings)) + 1)
                        * x ^ max_arity settings)%Z)
        by (apply Z.mul_nonneg_nonneg; [lia | apply Z.pow_nonneg; exact Hx]).
      replace (((Z.of_nat (List.length (body_preds settings)) + 1)
                * x ^ max_arity settings <? 0)%Z || (sl <? 0)%Z) with false
        by (symmetry; apply orb_false_iff; split; apply Z.ltb_ge; lia).
      assert (IH' : forall c, exists c',
                 vars_loop (Z.of_nat (List.length (body_preds settings)) + 1)
                   (max_arity settings) sr sl vs c = Ok c')
        by (apply IH; intros v Hin; apply Hvs; right; exact Hin).
      destruct (_ =? 0)%Z; [apply IH'|].
      destruct (_ && _); apply IH'. }
  destruct Hsw as [ret ->]. eexists. reflexivity.
Qed.

Lemma bias_order_expanded_entries_witness :
  no_bias settings_space || order_space settings_space = true /\
  bias_order settings_space 7
    = Ok (set_search_order settings_space [(2, 1, 1, Some 1); (1, 1, 1, Some 2)]%Z,
          [(2, 1, 1, Some 1); (1, 1, 1, Some 2)]%Z) /\
  set_search_order settings_space [(2, 1, 1, Some 1); (1, 1, 1, Some 2)]%Z
    = set_search_order settings_space [(2, 1, 1, Some 1); (1, 1, 1, Some 2)]%Z /\
  forall l v r h, In (l, v, r, h) [(2, 1, 1, Some 1); (1, 1, 1, Some 2)]%Z ->
  ((if no_bias settings_space then 1 else max_rules settings_space) <= r
     <= max_rules settings_space)%Z /\
  (1 <= l <= (1 + max_body settings_space) * r)%Z /\
  ((if no_bias settings_space then 1 else max_vars settings_space) <= v
     <= max_vars settings_space)%Z /\
  (v <= l * max_arity settings_space - 1)%Z /\
  (exists hs, h = Some hs /\ hs <> 0%Z) /\
  (1 < r -> 5 <= l)%Z.
Proof.
  split; [reflexivity|]. split; [vm_compute; reflexivity|].
  apply (bias_order_expanded_entries settings_space 7
           (set_search_order settings_space [(2, 1, 1, Some 1); (1, 1, 1, Some 2)]%Z));
    [reflexivity | vm_compute; reflexivity].
Defined.

Lemma bias_order_no_raise_witness :
  (0 <= max_arity settings_space)%Z /\ (0 <= max_vars settings_space)%Z /\
  exists res, bias_order settings_space 7 = Ok res.
Proof.
  split; [vm_compute; discriminate|]. split; [vm_compute; discriminate|].
  apply bias_order_no_raise; vm_compute; discriminate.
Defined.

(* ------------------------------------------------------------------ *)
(** ** Directions read from the bias file *)

Lemma pair_eqb_eq (a b : string * nat) : pair_eqb a b = true <-> a = b.
Proof.
  destruct a as [p i], b as [q j]. unfold pair_eqb. simpl.
  rewrite andb_true_iff, String.eqb_eq, Nat.eqb_eq.
  split; [intros [-> ->]; reflexivity | intros H; injection H as -> ->; auto].
Qed.

Lemma dir_lookup_set (k : string * nat) (v : string) (d : Dirs) (pred : string) (i : nat) :
  dir_lookup (dirs_set k v d) pred i
  = if pair_eqb (pred, i) k then v else dir_lookup d pred i.
Proof.
  induction d as [|[k' v'] r IH]; simpl.
  - destruct (pair_eqb (pred, i) k); reflexivity.
  - destruct (pair_eqb k k') eqn:Ek; simpl.
    + apply pair_eqb_eq in Ek. subst k'. destruct (pair_eqb (pred, i) k); reflexivity.
    + rewrite IH.
      destruct (pair_eqb (pred, i) k') eqn:E1, (pair_eqb (pred, i) k) eqn:E2; try reflexivity.
      apply pair_eqb_eq in E1, E2. rewrite <- E1, E2, (proj2 (pair_eqb_eq k k) eq_refl) in Ek.
      discriminate.
Qed.

Lemma dir_lookup_set_other (pred : string) (i : nat) (v : string) (d : Dirs)
  (p : string) (j : nat) :
  (p <> pred \/ j <> i) -> dir_lookup (dirs_set (pred, i) v d) p j = dir_lookup d p j.
Proof.
  intros H. rewrite dir_lookup_set. destruct (pair_eqb (p, j) (pred, i)) eqn:E; [|reflexivity].
  apply pair_eqb_eq in E. injection E as -> ->. destruct H; contradiction.
Qed.

Lemma dir_lookup_set_same (pred : string) (i : nat) (v : string) (d : Dirs) :
  dir_lookup (dirs_set (pred, i) v d) pred i = v.
Proof. rewrite dir_lookup_set, (proj2 (pair_eqb_eq _ _) eq_refl). reflexivity. Qed.

Lemma dir_args_other (pred : string) :
  forall names i0 a d a' d',
  dir_args pred i0 names a d = Some (a', d') ->
  forall p j, (p <> pred \/ j < i0 \/ i0 + List.length names <= j) ->
  dir_lookup d' p j = dir_lookup d p j.
Proof.
  induction names as [|y ys IH]; simpl; intros i0 a d a' d' H p j Hj.
  - injection H as _ <-. reflexivity.
  - match type of H with
    | match ?x with Some _ => _ | None => _ end = _ => destruct x as [v|]; [|discriminate]
    end.
    rewrite (IH _ _ _ _ _ H p j)
      by (destruct Hj as [Hp|[Hj|Hj]]; [left; exact Hp | right; left; lia | right; right; lia]).
    apply dir_lookup_set_other.
    destruct Hj as [Hp|[Hj|Hj]]; [left; exact Hp | right; lia | right; lia].
Qed.

Lemma dir_args_some (pred : string) :
  forall names i0 a d, exists a' d', dir_args pred i0 names (Some a) d = Some (Some a', d').
Proof.
  induction names as [|y ys IH]; simpl; intros i0 a d; [eexists; eexists; reflexivity|].
  destruct (String.eqb y "in"); [|destruct (String.eqb y "out")]; apply IH.
Qed.

Lemma dir_atoms_some :
  forall atoms a d, dir_atoms atoms (Some a) d <> None.
Proof.
  induction atoms as [|[pred names] rest IH]; simpl; intros a d; [discriminate|].
  destruct (dir_args_some pred names 0 a d) as [a' [d' ->]]. apply IH.
Qed.


Lemma dir_args_spec (pred : string) :
  forall names i0 a d a' d',
  dir_args pred i0 names a d = Some (a', d') ->
  forall k, k < List.length names ->
  (nth k names EmptyString = "in"%string -> dir_lookup d' pred (i0 + k) = "+"%string) /\
  (nth k names EmptyString = "out"%string -> dir_lookup d' pred (i0 + k) = "-"%string) /\
  (~ known_dir (nth k names EmptyString) ->
   (k = 0 -> a = Some (dir_lookup d' pred i0)) /\
   (0 < k -> dir_lookup d' pred (i0 + k) = dir_lookup d' pred (i0 + k - 1))).
Proof.
  induction names as [|y ys IH]; simpl; intros i0 a d a' d' H k Hk; [lia|].
  set (ad := if String.eqb y "in" then Some "+"%string
             else if String.eqb y "out" then Some "-"%string else a) in H.
  destruct ad as [v|] eqn:Ead; [|discriminate].
  assert (Hv : dir_lookup d' pred i0 = v).
  { rewrite (dir_args_other pred ys (S i0) _ _ _ _ H pred i0) by lia.
    apply dir_lookup_set_same. }
  destruct k as [|k].
  - rewrite Nat.add_0_r, Hv. unfold ad in Ead.
    destruct (String.eqb_spec y "in") as [->|Hin].
    { injection Ead as <-. split; [reflexivity|]. split; [discriminate|].
      intros Hn. exfalso. apply Hn. left. reflexivity. }
    destruct (String.eqb_spec y "out") as [->|Hout].
    { injection Ead as <-. split; [discriminate|]. split; [reflexivity|].
      intros Hn. exfalso. apply Hn. right. reflexivity. }
    split; [intros E; contradiction|]. split; [intros E; contradiction|].
    intros _. split; [intros _; exact Ead | lia].
  - destruct (IH _ _ _ _ _ H k ltac:(lia)) as [Hi [Ho Hu]].
    replace (i0 + S k) with (S i0 + k) by lia.
    split; [exact Hi|]. split; [exact Ho|].
    intros Hn. split; [lia|]. intros _.
    destruct k as [|k].
    + destruct (Hu Hn) as [Hk0 _]. rewrite Nat.add_0_r.
      replace (S i0 - 1) with i0 by lia.
      injection (Hk0 eq_refl) as <-. symmetry. exact Hv.
    + destruct (Hu Hn) as [_ Hk1]. rewrite (Hk1 ltac:(lia)). f_equal.
Qed.

Lemma dir_atoms_split :
  forall pre x post a d d',
  dir_atoms (pre ++ x :: post) a d = Some d' ->
  exists a0 d0 a1 d1,
  dir_args (fst x) 0 (snd x) a0 d0 = Some (a1, d1) /\ dir_atoms post a1 d1 = Some d'.
Proof.
  induction pre as [|[p n] pre IH]; simpl; intros [pred names] post a d d' H.
  - simpl. destruct (dir_args pred 0 names a d) as [[a1 d1]|] eqn:E; [|discriminate].
    exists a, d, a1, d1. split; [exact E | exact H].
  - destruct (dir_args p 0 n a d) as [[a1 d1]|]; [|discriminate].
    exact (IH _ _ _ _ _ H).
Qed.

Lemma dir_atoms_other :
  forall atoms a d d' p j,
  dir_atoms atoms a d = Some d' ->
  (forall names, In (p, names) atoms -> List.length names <= j) ->
  dir_lookup d' p j = dir_lookup d p j.
Proof.
  induction atoms as [|[pred names] rest IH]; simpl; intros a d d' p j H Hp.
  - injection H as <-. reflexivity.
  - destruct (dir_args pred 0 names a d) as [[a1 d1]|] eqn:E; [|discriminate].
    rewrite (IH _ _ _ _ _ H (fun n Hn => Hp n (or_intror Hn))).
    apply (dir_args_other pred names 0 a d a1 d1 E).
    destruct (String.eqb_spec p pred) as [->|Hne]; [|left; exact Hne].
    right. right. simpl. exact (Hp names (or_introl eq_refl)).
Qed.

(** Reading the directions raises [UnboundLocalError] exactly when the
    first argument name over all [direction] atoms (in the solver's order)
    is neither [in] nor [out]: [arg_dir] is then read before it is ever
    assigned. *)
Theorem read_directions_unbound (atoms : list (string * list string)) :
  read_directions atoms = None <->
  exists y rest, List.concat (map snd atoms) = y :: rest /\ ~ known_dir y.
Proof.
  unfold read_directions. generalize (@nil ((string * nat) * string)).
  induction atoms as [|[pred names] atoms IH]; simpl; intros d.
  - split; [discriminate | intros [y [rest [H _]]]; discriminate].
  - destruct names as [|y ys]; simpl; [apply IH|].
    destruct (String.eqb_spec y "in") as [->|Hin].
    { destruct (dir_args_some pred ys 1 "+" (dirs_set (pred, 0) "+" d)) as [a' [d' ->]].
      split; [intros H; exfalso; exact (dir_atoms_some _ _ _ H)|].
      intros [y' [rest [E Hn]]]. injection E as <- _. exfalso. apply Hn. left. reflexivity. }
    destruct (String.eqb_spec y "out") as [->|Hout].
    { destruct (dir_args_some pred ys 1 "-" (dirs_set (pred, 0) "-" d)) as [a' [d' ->]].
      split; [intros H; exfalso; exact (dir_atoms_some _ _ _ H)|].
      intros [y' [rest [E Hn]]]. injection E as <- _. exfalso. apply Hn. right. reflexivity. }
    split; [intros _|intros _; reflexivity].
    exists y, (ys ++ List.concat (map snd atoms)). split; [reflexivity|].
    intros [E|E]; contradiction.
Qed.

Lemma dir_lookup_last_atom (atoms : list (string * list string)) (d : Dirs)
  (pre post : list (string * list string)) (pred : string) (names : list string) :
  read_directions atoms = Some d ->
  atoms = pre ++ (pred, names) :: post ->
  ~ In pred (map fst post) ->
  forall k, k < List.length names ->
  (nth k names EmptyString = "in"%string -> dir_lookup d pred k = "+"%string) /\
  (nth k names EmptyString = "out"%string -> dir_lookup d pred k = "-"%string) /\
  (~ known_dir (nth k names EmptyString) -> 0 < k ->
   dir_lookup d pred k = dir_lookup d pred (k - 1)).
Proof.
  intros H -> Hpost k Hk. unfold read_directions in H.
  destruct (dir_atoms_split _ _ _ _ _ _ H) as [a0 [d0 [a1 [d1 [Ea Ep]]]]].
  simpl in Ea.
  assert (Hkeep : forall j, dir_lookup d pred j = dir_lookup d1 pred j).
  { intros j. apply (dir_atoms_other post a1 d1 d pred j Ep).
    intros n Hn. exfalso. apply Hpost. apply in_map_iff. exists (pred, n). auto. }
  destruct (dir_args_spec pred names 0 a0 d0 a1 d1 Ea k Hk) as [Hi [Ho Hu]].
  simpl in Hi, Ho, Hu. rewrite !Hkeep.
  split; [exact Hi|]. split; [exact Ho|].
  intros Hn Hk0. exact (proj2 (Hu Hn) Hk0).
Qed.

(** For the last [direction] atom of a predicate, argument [k] gets ['+']
    when its name is [in] and ['-'] when it is [out]; any other name
    copies the direction of argument [k - 1] (the value [arg_dir] still
    holds). *)
Theorem read_directions_last_atom (atoms : list (string * list string)) (d : Dirs)
  (pre post : list (string * list string)) (pred : string) (names : list string) :
  read_directions atoms = Some d ->
  atoms = pre ++ (pred, names) :: post ->
  ~ In pred (map fst post) ->
  forall k, k < List.length names ->
  (nth k names EmptyString = "in"%string -> dir_lookup d pred k = "+"%string) /\
  (nth k names EmptyString = "out"%string -> dir_lookup d pred k = "-"%string) /\
  (~ known_dir (nth k names EmptyString) -> 0 < k ->
   dir_lookup d pred k = dir_lookup d pred (k - 1)).
Proof.
  exact (dir_lookup_last_atom atoms d pre post pred names).
Qed.

(** An argument position that no [direction] atom of the predicate covers
    reads as ['?']. *)
Theorem read_directions_default (atoms : list (string * list string)) (d : Dirs)
  (pred : string) (i : nat) :
  read_directions atoms = Some d ->
  (forall names, In (pred, names) atoms -> List.length names <= i) ->
  dir_lookup d pred i = "?"%string.
Proof.
  intros H Hp. unfold read_directions in H.
  rewrite (dir_atoms_other atoms None [] d pred i H Hp). reflexivity.
Qed.

(** When the last [direction] atom of a predicate names only [in] and
    [out], the modes read for that predicate with that arity are ['+'] for
    each [in] and ['-'] for each [out]. *)
Theorem read_directions_modes (atoms : list (string * list string)) (d : Dirs)
  (pre post : list (string * list string)) (pred : string) (names : list string) :
  read_directions atoms = Some d ->
  atoms = pre ++ (pred, names) :: post ->
  ~ In pred (map fst post) ->
  Forall known_dir names ->
  modes_of d pred (List.length names)
  = map (fun y => if String.eqb y "in" then "+"%string else "-"%string) names.
Proof.
  intros H Ha Hpost Hk. unfold modes_of.
  set (g := fun y => if String.eqb y "in" then "+"%string else "-"%string).
  apply (nth_ext _ _ (dir_lookup d pred 0) (g EmptyString)).
  { rewrite !length_map, length_seq. reflexivity. }
  intros k Hlen. rewrite length_map, length_seq in Hlen.
  rewrite map_nth, seq_nth by exact Hlen. rewrite map_nth. simpl. unfold g.
  destruct (dir_lookup_last_atom atoms d pre post pred names H Ha Hpost k Hlen)
    as [Hi [Ho _]].
  rewrite Forall_forall in Hk.
  destruct (Hk (nth k names EmptyString) (nth_In _ _ Hlen)) as [E|E]; rewrite E.
  - exact (Hi E).
  - exact (Ho E).
Qed.

Lemma read_directions_last_atom_witness :
  exists d, read_directions [("q", ["out"]); ("p", ["in"; "mystery"; "out"])]%string = Some d /\
  dir_lookup d "p" 1 = "+"%string /\
  forall k, k < 3 ->
  (nth k ["in"; "mystery"; "out"]%string EmptyString = "in"%string ->
   dir_lookup d "p" k = "+"%string) /\
  (nth k ["in"; "mystery"; "out"]%string EmptyString = "out"%string ->
   dir_lookup d "p" k = "-"%string) /\
  (~ known_dir (nth k ["in"; "mystery"; "out"]%string EmptyString) -> 0 < k ->
   dir_lookup d "p" k = dir_lookup d "p" (k - 1)).
Proof.
  eexists. split; [reflexivity|]. split; [reflexivity|].
  apply (read_directions_last_atom [("q", ["out"]); ("p", ["in"; "mystery"; "out"])]%string
           _ [("q", ["out"])]%string [] "p" ["in"; "mystery"; "out"]%string).
  all: first [reflexivity | simpl; tauto].
Defined.

Lemma read_directions_default_witness :
  exists d, read_directions [("p", ["in"])]%string = Some d /\
  (forall names, In ("p"%string, names) [("p", ["in"])]%string -> List.length names <= 1) /\
  dir_lookup d "p" 1 = "?"%string.
Proof.
  assert (Hp : forall names, In ("p"%string, names) [("p", ["in"])]%string ->
                             List.length names <= 1).
  { intros n [E|[]]. injection E as <-. simpl. lia. }
  eexists. split; [reflexivity|]. split; [exact Hp|].
  apply (read_directions_default [("p", ["in"])]%string _ "p" 1); [reflexivity | exact Hp].
Defined.

Lemma read_directions_modes_witness :
  exists d, read_directions [("p", ["in"; "out"])]%string = Some d /\
  Forall known_dir ["in"; "out"]%string /\
  modes_of d "p" 2 = ["+"; "-"]%string.
Proof.
  assert (Hk : Forall known_dir ["in"; "out"]%string).
  { constructor; [left; reflexivity|]. constructor; [right; reflexivity|]. constructor. }
  eexists. split; [reflexivity|]. split; [exact Hk|].
  apply (read_directions_modes [("p", ["in"; "out"])]%string _ [] [] "p" ["in"; "out"]%string).
  all: first [reflexivity | exact Hk | simpl; tauto].
Defined.

(* ------------------------------------------------------------------ *)
(** ** [cached_atom_args] *)

Lemma permutations_sound (pool : list Z) :
  forall r l, In l (permutations pool r) ->
  List.length l = r /\ NoDup l /\ incl l pool.
Proof.
  intros r. revert pool. induction r as [|r IH]; simpl; intros pool l H.
  - destruct H as [<-|[]]. split; [reflexivity | split; [constructor | apply incl_nil_l]].
  - apply in_flat_map in H as [x [Hx Hl]]. apply in_map_iff in Hl as [l' [<- Hl']].
    destruct (IH _ _ Hl') as [Hlen [Hnd Hinc]]. simpl.
    split; [rewrite Hlen; reflexivity|]. split.
    + constructor; [|exact Hnd]. intros Hin. apply Hinc in Hin.
      exact (remove_In Z.eq_dec pool x Hin).
    + intros z [<-|Hz]; [exact Hx|]. apply Hinc in Hz. exact (proj1 (in_remove _ _ _ _ Hz)).
Qed.

Lemma permutations_complete (pool : list Z) :
  forall l, NoDup l -> incl l pool -> In l (permutations pool (List.length l)).
Proof.
  intros l. revert pool. induction l as [|x l IH]; simpl; intros pool Hnd Hinc.
  - left. reflexivity.
  - apply NoDup_cons_iff in Hnd as [Hx Hnd].
    apply in_flat_map. exists x. split; [apply Hinc; left; reflexivity|].
    apply in_map. apply IH; [exact Hnd|].
    intros z Hz. apply in_in_remove; [intros ->; contradiction|]. apply Hinc. right. exact Hz.
Qed.

Lemma lookup_args_ok (args : list Z) :
  forall vals, lookup_args args = Some vals ->
  vals = map (fun x => String (ascii_of_nat (65 + Z.to_nat x)) EmptyString) args.
Proof.
  induction args as [|x r IH]; simpl; intros vals H.
  - injection H as <-. reflexivity.
  - unfold arg_lookup in H. destruct ((0 <=? x) && (x <? 100))%Z; [|discriminate].
    destruct (lookup_args r) as [cs|]; [|discriminate].
    injection H as <-. rewrite (IH cs eq_refl). reflexivity.
Qed.

Lemma lookup_args_some (args : list Z) :
  (forall x, In x args -> (0 <= x < 100)%Z) -> lookup_args args <> None.
Proof.
  induction args as [|x r IH]; simpl; intros H; [discriminate|].
  unfold arg_lookup.
  replace ((0 <=? x) && (x <? 100))%Z with true
    by (symmetry; apply andb_true_iff; split; [apply Z.leb_le | apply Z.ltb_lt];
        specialize (H x (or_introl eq_refl)); lia).
  destruct (lookup_args r) as [cs|]; [discriminate|].
  exfalso. apply IH; [|reflexivity]. intros y Hy. exact (H y (or_intror Hy)).
Qed.

Lemma cache_set_in (k0 : list Z) (v0 : list string) :
  forall d k v, In (k, v) (cache_set k0 v0 d) -> (k = k0 /\ v = v0) \/ In (k, v) d.
Proof.
  induction d as [|[k' v'] r IH]; simpl; intros k v H.
  - destruct H as [H|[]]. injection H as <- <-. left. auto.
  - destruct (list_eq_dec Z.eq_dec k0 k') as [->|Hne]; destruct H as [H|H].
    + injection H as <- <-. left. auto.
    + right. right. exact H.
    + right. left. exact H.
    + destruct (IH _ _ H) as [L|L]; [left; exact L | right; right; exact L].
Qed.

Lemma cache_set_keys (k0 : list Z) (v0 : list string) :
  forall d k, In k (map fst (cache_set k0 v0 d)) <-> In k (map fst d) \/ k = k0.
Proof.
  induction d as [|[k' v'] r IH]; simpl; intros k.
  - intuition.
  - destruct (list_eq_dec Z.eq_dec k0 k') as [->|Hne]; simpl.
    + intuition.
    + rewrite IH. intuition.
Qed.

Lemma cache_set_nodup (k0 : list Z) (v0 : list string) :
  forall d, NoDup (map fst d) -> NoDup (map fst (cache_set k0 v0 d)).
Proof.
  induction d as [|[k' v'] r IH]; simpl; intros H.
  - repeat constructor. intros [].
  - apply NoDup_cons_iff in H as [Hk Hr].
    destruct (list_eq_dec Z.eq_dec k0 k') as [->|Hne]; simpl.
    + constructor; assumption.
    + constructor; [|exact (IH Hr)]. rewrite cache_set_keys. intros [H|H]; [contradiction|].
      apply Hne. symmetry. exact H.
Qed.


Lemma cache_perms_spec :
  forall ps d d', cache_perms ps d = Some d' -> cache_good d ->
  cache_good d' /\ (forall k, In k (map fst d') <-> In k (map fst d) \/ In k ps).
Proof.
  induction ps as [|args rest IH]; simpl; intros d d' H Hg.
  - injection H as <-. split; [exact Hg|]. intros k. intuition.
  - destruct (lookup_args args) as [v|] eqn:E; [|discriminate].
    assert (Hg' : cache_good (cache_set args v d)).
    { destruct Hg as [Hn Hv]. split; [exact (cache_set_nodup _ _ _ Hn)|].
      intros k vals Hin. destruct (cache_set_in _ _ _ _ _ Hin) as [[-> ->]|Hin'].
      - exact (lookup_args_ok _ _ E).
      - exact (Hv _ _ Hin'). }
    destruct (IH _ _ H Hg') as [Hg'' Hk]. split; [exact Hg''|].
    intros k. rewrite Hk, cache_set_keys. intuition.
Qed.

Lemma cache_arities_spec (max_vars : Z) :
  forall is d d', cache_arities is max_vars d = Some d' -> cache_good d ->
  cache_good d' /\
  (forall k, In k (map fst d') <-> In k (map fst d) \/
     exists i, In i is /\ In k (permutations (zrange 0 max_vars) (Z.to_nat i))).
Proof.
  induction is as [|i rest IH]; simpl; intros d d' H Hg.
  - injection H as <-. split; [exact Hg|]. intros k. split; [intuition|].
    intros [L|[i [[] _]]]. exact L.
  - destruct (cache_perms _ d) as [d1|] eqn:E; [|discriminate].
    destruct (cache_perms_spec _ _ _ E Hg) as [Hg1 Hk1].
    destruct (IH _ _ H Hg1) as [Hg' Hk]. split; [exact Hg'|].
    intros k. rewrite Hk, Hk1. split.
    + intros [[L|L]|[j [Hj Hl]]]; [left; exact L | right; exists i; auto | right; exists j; auto].
    + intros [L|[j [[<-|Hj] Hl]]]; [left; left; exact L | left; right; exact Hl |].
      right. exists j. auto.
Qed.

Lemma cache_perms_none :
  forall ps args, In args ps -> lookup_args args = None -> forall d, cache_perms ps d = None.
Proof.
  induction ps as [|a rest IH]; simpl; intros args Hin Hl d; [destruct Hin|].
  destruct Hin as [<-|Hin]; [rewrite Hl; reflexivity|].
  destruct (lookup_args a); [|reflexivity]. exact (IH _ Hin Hl _).
Qed.

Lemma cache_perms_some :
  forall ps, (forall args, In args ps -> lookup_args args <> None) ->
  forall d, exists d', cache_perms ps d = Some d'.
Proof.
  induction ps as [|a rest IH]; simpl; intros H d; [eexists; reflexivity|].
  destruct (lookup_args a) as [v|] eqn:E; [|exfalso; exact (H a (or_introl eq_refl) E)].
  apply IH. intros args Hin. exact (H args (or_intror Hin)).
Qed.

Lemma zrange_cons (a b : Z) : (a < b)%Z -> zrange a b = a :: zrange (a + 1) b.
Proof.
  intros H. unfold zrange.
  replace (Z.to_nat (b - a)) with (S (Z.to_nat (b - (a + 1)))) by lia.
  simpl. f_equal; [lia|]. rewrite <- seq_shift, map_map. apply map_ext. intros i. lia.
Qed.

Lemma zrange_empty (a b : Z) : (b <= a)%Z -> zrange a b = [].
Proof. intros H. unfold zrange. replace (Z.to_nat (b - a)) with 0%nat by lia. reflexivity. Qed.

(** Building [cached_atom_args] raises [KeyError] exactly when some
    arity is at least 1 and [max_vars] exceeds 100: [arg_lookup] only
    covers the variables 0 to 99. *)
Theorem cached_atom_args_key_error (max_arity max_vars : Z) :
  cached_atom_args max_arity max_vars = None <-> (1 <= max_arity /\ 100 < max_vars)%Z.
Proof.
  unfold cached_atom_args. split.
  - intros H. destruct (Z.le_gt_cases 1 max_arity) as [Ha|Ha];
      [|rewrite zrange_empty in H by lia; discriminate].
    split; [exact Ha|]. destruct (Z.le_gt_cases max_vars 100) as [Hv|Hv]; [|exact Hv].
    exfalso. revert H. generalize (@nil (list Z * list string)).
    induction (zrange 1 (max_arity + 1)) as [|i rest IH]; simpl; intros d H; [discriminate|].
    destruct (cache_perms_some (permutations (zrange 0 max_vars) (Z.to_nat i))) with (d := d)
      as [d' E].
    { intros args Hin. apply lookup_args_some. intros x Hx.
      destruct (permutations_sound _ _ _ Hin) as [_ [_ Hinc]].
      apply Hinc, zrange_In in Hx. lia. }
    rewrite E in H. exact (IH _ H).
  - intros [Ha Hv]. rewrite zrange_cons by lia. cbn [cache_arities].
    rewrite (cache_perms_none _ [100%Z]); [reflexivity | | reflexivity].
    change (Z.to_nat 1) with (List.length [100%Z]). apply permutations_complete.
    + repeat constructor. intros [].
    + intros x [<-|[]]. apply zrange_In. lia.
Qed.

(** When [cached_atom_args] is built, its keys are distinct and are
    exactly the duplicate-free tuples of variables [0 <= x < max_vars]
    of length 1 to [max_arity]; the value of a key is the tuple of the
    letters [chr(ord('A') + x)] of its numbers. *)
Theorem cached_atom_args_entries (max_arity max_vars : Z) d :
  cached_atom_args max_arity max_vars = Some d ->
  NoDup (map fst d) /\
  (forall k vals, In (k, vals) d ->
   vals = map (fun x => String (ascii_of_nat (65 + Z.to_nat x)) EmptyString) k) /\
  (forall k, In k (map fst d) <->
   (1 <= List.length k <= Z.to_nat max_arity)%nat /\ NoDup k /\
   (forall x, In x k -> 0 <= x < max_vars)%Z).
Proof.
  unfold cached_atom_args. intros H.
  assert (Hg0 : cache_good []) by (split; [constructor | intros k vals []]).
  destruct (cache_arities_spec _ _ _ _ H Hg0) as [[Hn Hv] Hk].
  split; [exact Hn|]. split; [exact Hv|].
  intros k. rewrite Hk. simpl. split.
  - intros [[]|[i [Hi Hl]]]. apply zrange_In in Hi.
    destruct (permutations_sound _ _ _ Hl) as [Hlen [Hnd Hinc]].
    split; [lia|]. split; [exact Hnd|].
    intros x Hx. apply Hinc, zrange_In in Hx. lia.
  - intros [Hlen [Hnd Hx]]. right. exists (Z.of_nat (List.length k)).
    split; [apply zrange_In; lia|]. rewrite Nat2Z.id.
    apply permutations_complete; [exact Hnd|].
    intros x Hin. apply zrange_In. exact (Hx x Hin).
Qed.

Lemma cached_atom_args_entries_witness :
  cached_atom_args 2 3 = Some
    [([0%Z], ["A"%string]); ([1%Z], ["B"%string]); ([2%Z], ["C"%string]);
     ([0%Z; 1%Z], ["A"%string; "B"%string]); ([0%Z; 2%Z], ["A"%string; "C"%string]);
     ([1%Z; 0%Z], ["B"%string; "A"%string]); ([1%Z; 2%Z], ["B"%string; "C"%string]);
     ([2%Z; 0%Z], ["C"%string; "A"%string]); ([2%Z; 1%Z], ["C"%string; "B"%string])] /\
  NoDup (map fst
    [([0%Z], ["A"%string]); ([1%Z], ["B"%string]); ([2%Z], ["C"%string]);
     ([0%Z; 1%Z], ["A"%string; "B"%string]); ([0%Z; 2%Z], ["A"%string; "C"%string]);
     ([1%Z; 0%Z], ["B"%string; "A"%string]); ([1%Z; 2%Z], ["B"%string; "C"%string]);
     ([2%Z; 0%Z], ["C"%string; "A"%string]); ([2%Z; 1%Z], ["C"%string; "B"%string])]).
Proof.
  split; [vm_compute; reflexivity|].
  exact (proj1 (cached_atom_args_entries 2 3 _ (eq_refl : cached_atom_args 2 3 = Some
    [([0%Z], ["A"%string]); ([1%Z], ["B"%string]); ([2%Z], ["C"%string]);
     ([0%Z; 1%Z], ["A"%string; "B"%string]); ([0%Z; 2%Z], ["A"%string; "C"%string]);
     ([1%Z; 0%Z], ["B"%string; "A"%string]); ([1%Z; 2%Z], ["B"%string; "C"%string]);
     ([2%Z; 0%Z], ["C"%string; "A"%string]); ([2%Z; 1%Z], ["C"%string; "B"%string])]))).
Defined.

(* ------------------------------------------------------------------ *)
(** ** [Stats.duration] *)

Lemma durations_of_record {Time : Type} (op o : string) (x : Time) :
  forall ds, durations_of o (record_duration op x ds)
             = if String.eqb o op then durations_of o ds ++ [x] else durations_of o ds.
Proof.
  induction ds as [|[o' xs] r IH]; simpl.
  - destruct (String.eqb_spec o op); reflexivity.
  - destruct (String.eqb_spec op o') as [->|Hne]; simpl.
    + destruct (String.eqb_spec o o'); reflexivity.
    + rewrite IH. destruct (String.eqb_spec o o') as [->|Hne']; [|reflexivity].
      destruct (String.eqb_spec o' op) as [->|]; [contradiction | reflexivity].
Qed.

(** [with stats.duration(operation)] returns (or raises) what the body
    returns (or raises), and whether or not the body raised it appends
    exactly one duration, the clock difference across the body, to the
    operation's list, leaving every other operation's list as the body
    left it. *)
Theorem duration_records {Time : Type} (perf_counter : nat -> Time)
  (sub : Time -> Time -> Time) {A : Type} (operation : string)
  (body : Stats Time -> Stats Time * result A) (st : Stats Time) :
  let st2 := fst (body (mkStats (S (clock_calls st)) (durations st))) in
  let res := duration perf_counter sub operation body st in
  snd res = snd (body (mkStats (S (clock_calls st)) (durations st))) /\
  durations_of operation (durations (fst res))
    = durations_of operation (durations st2)
      ++ [sub (perf_counter (clock_calls st2)) (perf_counter (clock_calls st))] /\
  (forall o, o <> operation ->
   durations_of o (durations (fst res)) = durations_of o (durations st2)).
Proof.
  unfold duration, perf_read. simpl.
  destruct (body (mkStats (S (clock_calls st)) (durations st))) as [st2 r]. simpl.
  split; [reflexivity|]. split.
  - rewrite durations_of_record, String.eqb_refl. reflexivity.
  - intros o Hne. rewrite durations_of_record.
    destruct (String.eqb_spec o operation); [contradiction | reflexivity].
Qed.
